(** * bufconn: a message-framing layer over a net.Conn

    A shallow embedding of [Conn.go].  The [Conn] struct becomes a record,
    Go channels become bounded FIFO queues, the [net.Conn] interface becomes
    a type class, and the two goroutines started by [NewConn] become step
    functions (one loop iteration each).  The busy-polling loops of [Read]
    and [ReadMsg] consume a finite list of observations of their
    environment (the clock and the Byte Reader), one per loop iteration. *)

From Stdlib.Strings Require Import String Byte.
From Stdlib Require Import ZArith List Lia Bool Relations.
Import ListNotations.

Set Implicit Arguments.

(** ** Go values *)

(** Go's [error] interface: [nil], a value built by [errors.New], or an
    error reported by the underlying connection. *)
Inductive error : Type :=
| nil_error
| errors_New (text : string)
| net_error (code : nat).

Definition is_nil (e : error) : bool :=
  match e with nil_error => true | _ => false end.

(** [time.Duration] is a signed count of nanoseconds. *)
Definition Duration : Type := Z.

(** Slices of bytes. *)
Definition make (n : nat) : list byte := repeat x00 n.

(** [copy(dst, src)] overwrites the first [min (len dst) (len src)]
    elements of [dst]. *)
Definition copy (dst src : list byte) : list byte :=
  let k := Nat.min (length dst) (length src) in
  firstn k src ++ skipn k dst.

(** [s[:j]] and [s[i:]]. *)
Definition slice_to (s : list byte) (j : nat) : list byte := firstn j s.
Definition slice_from (s : list byte) (i : nat) : list byte := skipn i s.

(** Conversions [string(bs)] and [[]byte(s)]: a Go string is a sequence
    of bytes. *)
Definition string_of_bytes (bs : list byte) : string := string_of_list_byte bs.
Definition bytes_of_string (s : string) : list byte := list_byte_of_string s.

(** ** Channels *)

(** A buffered channel: its capacity is fixed by [make(chan T, cap)]. *)
Record chan (A : Type) : Type := mkChan {
  cap : nat;
  queue : list A
}.

Definition make_chan (A : Type) (n : nat) : chan A := mkChan n [].

Definition len (A : Type) (ch : chan A) : nat := length (queue ch).

(** [ch <- x]: [None] when the send cannot proceed (the queue is full). *)
Definition send (A : Type) (ch : chan A) (x : A) : option (chan A) :=
  if Nat.ltb (len ch) (cap ch)
  then Some (mkChan (cap ch) (queue ch ++ [x]))
  else None.

(** [<-ch]: [None] when the receive cannot proceed (the queue is empty). *)
Definition recv (A : Type) (ch : chan A) : option (A * chan A) :=
  match queue ch with
  | [] => None
  | x :: rest => Some (x, mkChan (cap ch) rest)
  end.

(** ** Function values of type [func(c *C)] *)

(** A Go function value is [nil], one of the two function literals of
    [Conn.go], or a closure supplied by the caller (named by an index into
    the caller's code). *)
Inductive func : Type :=
| nil_func
| lit_NewConn              (* func(c *C) { c.ReadMsg(0) }, NewConn *)
| lit_SetMessageHandler    (* func(c *C) { c.ReadMsg(0) }, SetMessageHandler *)
| closure (id : nat).

Definition func_is_nil (f : func) : bool :=
  match f with nil_func => true | _ => false end.

(** ** The underlying connection *)

(** The part of the [net.Conn] interface that [Conn.go] calls.  [Read]
    receives the length of the buffer it may fill and returns the bytes it
    stored there. *)
Class NetConn (N : Type) : Type := {
  net_Read : N -> nat -> N * (list byte * error);
  net_Write : N -> list byte -> N * (Z * error);
  net_Close : N -> N * error
}.

(** ** The [Conn] struct *)

Record Conn (N : Type) : Type := mkConn {
  netconn : N;
  readBuf : list byte;
  readChan : chan byte;
  opChan : chan func;
  msgHandler : func;
  msgDelim : byte;
  isStopped : bool;
  stopChan : chan bool
}.

Section Setters.
Context {N : Type}.

Definition set_netconn (n : N) (c : Conn N) : Conn N :=
  mkConn n (readBuf c) (readChan c) (opChan c) (msgHandler c)
         (msgDelim c) (isStopped c) (stopChan c).
Definition set_readBuf (b : list byte) (c : Conn N) : Conn N :=
  mkConn (netconn c) b (readChan c) (opChan c) (msgHandler c)
         (msgDelim c) (isStopped c) (stopChan c).
Definition set_readChan (ch : chan byte) (c : Conn N) : Conn N :=
  mkConn (netconn c) (readBuf c) ch (opChan c) (msgHandler c)
         (msgDelim c) (isStopped c) (stopChan c).
Definition set_opChan (ch : chan func) (c : Conn N) : Conn N :=
  mkConn (netconn c) (readBuf c) (readChan c) ch (msgHandler c)
         (msgDelim c) (isStopped c) (stopChan c).
Definition set_msgHandler (f : func) (c : Conn N) : Conn N :=
  mkConn (netconn c) (readBuf c) (readChan c) (opChan c) f
         (msgDelim c) (isStopped c) (stopChan c).
Definition set_isStopped (b : bool) (c : Conn N) : Conn N :=
  mkConn (netconn c) (readBuf c) (readChan c) (opChan c) (msgHandler c)
         (msgDelim c) b (stopChan c).
Definition set_stopChan (ch : chan bool) (c : Conn N) : Conn N :=
  mkConn (netconn c) (readBuf c) (readChan c) (opChan c) (msgHandler c)
         (msgDelim c) (isStopped c) ch.
End Setters.

(** ** The environment of a polling loop *)

(** What one iteration of a polling loop observes: the value of
    [time.Since(now)] at its timeout guard, and the bytes that the Byte
    Reader goroutine sends on [readChan] before the iteration's drain
    ends (sends interleave with the drain's receives, so their number is not
    limited by the capacity). *)
Record tick : Type := mkTick {
  since : Duration;
  arrived : list byte
}.

(** Result of a call that polls: it returned a value and an error, it
    panicked, or it is still looping after every observation was used. *)
Inductive poll (N A : Type) : Type :=
| Return (v : A) (err : error) (c : Conn N)
| Panic
| Spin (c : Conn N).
Arguments Panic {N A}.
Arguments Spin {N A} c.

(** Result of an iteration of a goroutine's loop: it went through, the
    goroutine returned, or it is blocked on a channel. *)
Inductive step (S : Type) : Type :=
| Done (s : S)
| Exit (s : S)
| Blocked (s : S).

Section Embedding.
Context {N : Type} `{NetConn N}.

(** The bytes received and not yet consumed, in arrival order: the Read
    Buffer followed by the Pending Byte Queue. *)
Definition unconsumed (c : Conn N) : list byte :=
  readBuf c ++ queue (readChan c).

(** The Byte Reader's sends, as seen by a polling loop. *)
Definition deliver (bs : list byte) (c : Conn N) : Conn N :=
  set_readChan (mkChan (cap (readChan c)) (queue (readChan c) ++ bs)) c.

(** [for len(c.readChan) > 0 { c.readBuf = append(c.readBuf, <-c.readChan) }] *)
Fixpoint drain (pending : list byte) (buf : list byte) : list byte :=
  match pending with
  | [] => buf
  | b :: rest => drain rest (buf ++ [b])
  end.

Definition updateWholeBuffer (c : Conn N) : Conn N :=
  set_readChan (mkChan (cap (readChan c)) [])
    (set_readBuf (drain (queue (readChan c)) (readBuf c)) c).

(** [time.Since(now) > timeout && timeout != 0] *)
Definition timed_out (elapsed timeout : Duration) : bool :=
  (Z.gtb elapsed timeout) && negb (Z.eqb timeout 0).

Definition timeout_error : error := errors_New "message read timeout".

(** [for i, b := range buf { if b == delim { ... } }]: the index at which
    the loop body's condition first holds, counting from [i]. *)
Fixpoint range_find (delim : byte) (buf : list byte) (i : nat) : option nat :=
  match buf with
  | [] => None
  | b :: rest => if Byte.eqb b delim then Some i else range_find delim rest (S i)
  end.

(** [ReadMsg].  [now := time.Now()] is the origin of the readings
    [since w]; the empty list of observations is where the model stops
    following the loop. *)
Fixpoint ReadMsg (timeout : Duration) (ws : list tick) (c : Conn N)
  : poll N string :=
  match ws with
  | [] => Spin c
  | w :: ws' =>
      if timed_out (since w) timeout
      then Return EmptyString timeout_error c
      else
        let c1 := updateWholeBuffer (deliver (arrived w) c) in
        match range_find (msgDelim c1) (readBuf c1) 0 with
        | Some i =>
            let out := copy (make (i + 1)) (readBuf c1) in
            Return (string_of_bytes (slice_to out (length out - 1)))
                   nil_error
                   (set_readBuf (slice_from (readBuf c1) (i + 1)) c1)
        | None => ReadMsg timeout ws' c1
        end
  end.

(** [Read]: [make([]byte, n)] panics when [n] is negative. *)
Fixpoint Read (n : Z) (timeout : Duration) (ws : list tick) (c : Conn N)
  : poll N (list byte) :=
  match ws with
  | [] => Spin c
  | w :: ws' =>
      if timed_out (since w) timeout
      then Return [] timeout_error c
      else
        let c1 := updateWholeBuffer (deliver (arrived w) c) in
        if Z.geb (Z.of_nat (length (readBuf c1))) n
        then
          if Z.ltb n 0 then Panic
          else
            let out := copy (make (Z.to_nat n)) (readBuf c1) in
            Return out nil_error
                   (set_readBuf (slice_from (readBuf c1) (Z.to_nat n)) c1)
        else Read n timeout ws' c1
  end.

(** [Write] and [WriteMsg] *)
Definition Write (bs : list byte) (c : Conn N) : (Z * error) * Conn N :=
  let (n', r) := net_Write (netconn c) bs in
  (r, set_netconn n' c).

Definition WriteMsg (msg : string) (c : Conn N) : (Z * error) * Conn N :=
  Write (bytes_of_string msg ++ [msgDelim c]) c.

End Embedding.

(** ** The public surface of [Conn] *)

Section Surface.
Context {N : Type} `{NetConn N}.

(** [NewConn]: the record it builds.  The two goroutines it starts are
    [reader_iteration] and [scheduler_iteration] below. *)
Definition NewConn (nc : N) (handler : func) (delim : byte) : Conn N :=
  let handler := if func_is_nil handler then lit_NewConn else handler in
  mkConn nc (make 0) (make_chan byte 100) (make_chan func 10)
         handler delim false (make_chan bool 10).

(** [QueueOperation]: [None] while the send on [opChan] cannot proceed. *)
Definition QueueOperation (o : func) (c : Conn N) : option (Conn N) :=
  match send (opChan c) o with
  | Some ch => Some (set_opChan ch c)
  | None => None
  end.

(** [SetMessageHandler] *)
Definition SetMessageHandler (f : func) (c : Conn N) : Conn N :=
  let f := if func_is_nil f then lit_SetMessageHandler else f in
  set_msgHandler f c.

(** [Stop]: the flag is set before the send on [stopChan]. *)
Definition Stop (c : Conn N) : step (Conn N) :=
  if isStopped c then Done c
  else
    let c1 := set_isStopped true c in
    match send (stopChan c1) true with
    | Some ch => Done (set_stopChan ch c1)
    | None => Blocked c1
    end.

(** [IsStopped] *)
Definition IsStopped (c : Conn N) : bool := isStopped c.

(** ** The Byte Reader goroutine *)

(** One iteration of the first goroutine of [NewConn]; [minibuf] is its
    one-byte buffer.  [Exit] is the goroutine's [return]. *)
Definition reader_iteration (minibuf : list byte) (c : Conn N)
  : step (list byte * Conn N) :=
  if isStopped c then Exit (minibuf, c)
  else
    let '(nc, (data, err)) := net_Read (netconn c) (length minibuf) in
    let minibuf := copy minibuf data in
    let c := set_netconn nc c in
    if negb (is_nil err) then
      match Stop c with
      | Done c' | Exit c' => Exit (minibuf, c')
      | Blocked c' => Blocked (minibuf, c')
      end
    else
      match send (readChan c) (nth 0 minibuf x00) with
      | Some ch => Done (minibuf, set_readChan ch c)
      | None => Blocked (minibuf, c)
      end.

(** ** The Scheduler goroutine *)

(** The code of the caller's closures: each runs against the connection
    while observing the environment, as [Read] and [ReadMsg] do. *)
Variable closures : nat -> list tick -> Conn N -> poll N unit.

Definition discard (A : Type) (r : poll N A) : poll N unit :=
  match r with
  | Return _ _ c => Return tt nil_error c
  | Panic => Panic
  | Spin c => Spin c
  end.

(** Calling a function value with [&C{conn}]. *)
Definition call (f : func) (ws : list tick) (c : Conn N) : poll N unit :=
  match f with
  | nil_func => Panic
  | lit_NewConn => discard (ReadMsg 0%Z ws c)
  | lit_SetMessageHandler => discard (ReadMsg 0%Z ws c)
  | closure id => closures id ws c
  end.

(** The cases of the [select] statement. *)
Inductive select_case : Type := case_readChan | case_opChan | case_stopChan.

(** What an iteration of the Scheduler loop leads to. *)
Inductive sched : Type :=
| Continue (c : Conn N)     (* the loop goes round again *)
| Returned (c : Conn N)     (* the goroutine returned *)
| Waiting (c : Conn N)      (* the chosen case of the select is not ready *)
| Crashed                   (* the callback panicked *)
| Running (c : Conn N).     (* the callback has not returned yet *)

(** An iteration also yields the function values it called, in order. *)
Definition invoke (f : func) (ws : list tick) (c : Conn N) : list func * sched :=
  ([f], match call f ws c with
        | Return _ _ c' => Continue c'
        | Panic => Crashed
        | Spin c' => Running c'
        end).

(** [<-conn.stopChan; conn.netconn.Close(); return] *)
Definition stop_and_close (c : Conn N) : list func * sched :=
  match recv (stopChan c) with
  | Some (_, ch) =>
      let (nc, _) := net_Close (netconn c) in
      ([], Returned (set_netconn nc (set_stopChan ch c)))
  | None => ([], Waiting c)
  end.

(** One iteration of the second goroutine of [NewConn].  [pick] is the
    case that the [select] statement takes; [ws] is what a callback
    observes while it runs. *)
Definition scheduler_iteration (pick : select_case) (ws : list tick)
           (c : Conn N) : list func * sched :=
  if Nat.ltb 0 (len (stopChan c)) then stop_and_close c
  else
    match pick with
    | case_readChan =>
        match recv (readChan c) with
        | Some (b, ch) =>
            let c1 := set_readBuf (readBuf c ++ [b]) (set_readChan ch c) in
            if Byte.eqb b (msgDelim c1)
            then invoke (msgHandler c1) ws c1
            else ([], Continue c1)
        | None => ([], Waiting c)
        end
    | case_opChan =>
        match recv (opChan c) with
        | Some (o, ch) => invoke o ws (set_opChan ch c)
        | None => ([], Waiting c)
        end
    | case_stopChan => stop_and_close c
    end.

(** The loop itself, over a schedule giving each iteration its [select]
    case and its observations.  It stops at the first iteration that does
    not lead back to the top of the loop. *)
Fixpoint scheduler_loop (schedule : list (select_case * list tick))
         (c : Conn N) : list func * sched :=
  match schedule with
  | [] => ([], Continue c)
  | (pick, ws) :: rest =>
      match scheduler_iteration pick ws c with
      | (called, Continue c') =>
          let (called', r) := scheduler_loop rest c' in
          (called ++ called', r)
      | r => r
      end
  end.

End Surface.

(** ** States a connection can be in *)

Section Reachability.
Context {N : Type} `{NetConn N}.

(** The states reached from [NewConn] by the exported methods and by the
    steps of the two goroutines.  A callback run by the Scheduler can act
    on the connection only through the exported methods, so the
    Scheduler's own steps are its receives and its shutdown. *)
Inductive reachable : Conn N -> Prop :=
| reach_NewConn nc handler delim :
    reachable (NewConn nc handler delim)
| reach_SetMessageHandler f c :
    reachable c -> reachable (SetMessageHandler f c)
| reach_QueueOperation o c c' :
    reachable c -> QueueOperation o c = Some c' -> reachable c'
| reach_Stop c c' :
    reachable c -> Stop c = Done c' -> reachable c'
| reach_ReadMsg timeout ws c msg err c' :
    reachable c -> ReadMsg timeout ws c = Return msg err c' -> reachable c'
| reach_Read n timeout ws c out err c' :
    reachable c -> Read n timeout ws c = Return out err c' -> reachable c'
| reach_Write bs c :
    reachable c -> reachable (snd (Write bs c))
| reach_reader_forward minibuf c minibuf' c' :
    reachable c -> reader_iteration minibuf c = Done (minibuf', c') ->
    reachable c'
| reach_reader_exit minibuf c minibuf' c' :
    reachable c -> reader_iteration minibuf c = Exit (minibuf', c') ->
    reachable c'
| reach_scheduler_byte b ch c :
    reachable c -> recv (readChan c) = Some (b, ch) ->
    reachable (set_readBuf (readBuf c ++ [b]) (set_readChan ch c))
| reach_scheduler_op o ch c :
    reachable c -> recv (opChan c) = Some (o, ch) ->
    reachable (set_opChan ch c)
| reach_scheduler_stop c c' :
    reachable c -> stop_and_close c = ([], Returned c') -> reachable c'.

(** What every reachable state satisfies: the capacities chosen by
    [NewConn], no more pending bytes than the queue holds, a stop signal
    only once the flag is set, and a handler that is not [nil]. *)
Definition conn_inv (c : Conn N) : Prop :=
  cap (readChan c) = 100 /\
  cap (opChan c) = 10 /\
  cap (stopChan c) = 10 /\
  len (readChan c) <= 100 /\
  (isStopped c = false -> queue (stopChan c) = []) /\
  len (stopChan c) <= 1 /\
  msgHandler c <> nil_func.

(** A polling call touches the Read Buffer and empties the Pending Byte
    Queue; the rest of the connection is as it was. *)
Definition polled (c c' : Conn N) : Prop :=
  netconn c' = netconn c /\
  cap (readChan c') = cap (readChan c) /\
  (queue (readChan c') = queue (readChan c) \/ queue (readChan c') = []) /\
  opChan c' = opChan c /\
  msgHandler c' = msgHandler c /\
  msgDelim c' = msgDelim c /\
  isStopped c' = isStopped c /\
  stopChan c' = stopChan c.

End Reachability.

(** ** Sequences of reads *)

Section Sessions.
Context {N : Type} `{NetConn N}.

(** A call made by a callback: [Read(n, timeout)] or [ReadMsg(timeout)],
    with what its polling loop observes. *)
Inductive request : Type :=
| call_Read (n : Z) (timeout : Duration) (ws : list tick)
| call_ReadMsg (timeout : Duration) (ws : list tick).

Definition observations (r : request) : list tick :=
  match r with call_Read _ _ ws => ws | call_ReadMsg _ ws => ws end.

(** The bytes a call has taken from the unconsumed bytes when it returns:
    [Read] returns them; [ReadMsg] returns them without the delimiter that
    ended the message. *)
Definition perform (r : request) (c : Conn N) : poll N (list byte) :=
  match r with
  | call_Read n timeout ws => Read n timeout ws c
  | call_ReadMsg timeout ws =>
      match ReadMsg timeout ws c with
      | Return msg err c' =>
          Return (if is_nil err then bytes_of_string msg ++ [msgDelim c]
                  else [])
                 err c'
      | Panic => Panic
      | Spin c' => Spin c'
      end
  end.

(** Calls made one after the other, each starting where the previous one
    returned; [None] when one of them does not return. *)
Fixpoint perform_all (rs : list request) (c : Conn N)
  : option (list (list byte) * Conn N) :=
  match rs with
  | [] => Some ([], c)
  | r :: rs' =>
      match perform r c with
      | Return taken _ c' =>
          match perform_all rs' c' with
          | Some (takens, c'') => Some (taken :: takens, c'')
          | None => None
          end
      | _ => None
      end
  end.

(** The bytes that arrive during the first [k] observations of each
    call. *)
Fixpoint arrivals (ks : list nat) (rs : list request) : list byte :=
  match ks, rs with
  | k :: ks', r :: rs' =>
      concat (map arrived (firstn k (observations r))) ++ arrivals ks' rs'
  | _, _ => []
  end.

End Sessions.

(** ** An in-memory connection *)

(** A connection held in memory: the bytes the peer has sent and that
    [Read] has not returned yet, the bytes written so far, and whether the
    connection was closed or its write side has failed.  [Read] on an empty
    [inbound] reports the peer's orderly close ([io.EOF]). *)
Record pipe : Type := mkPipe {
  inbound : list byte;
  outbound : list byte;
  closed : bool;
  write_broken : bool
}.

Definition io_EOF : error := net_error 0.
Definition err_closed : error := net_error 1.
Definition err_broken_pipe : error := net_error 2.

Definition pipe_Read (p : pipe) (n : nat) : pipe * (list byte * error) :=
  if closed p then (p, ([], err_closed))
  else
    match inbound p with
    | [] => (p, ([], io_EOF))
    | _ => (mkPipe (skipn n (inbound p)) (outbound p) (closed p) (write_broken p),
            (firstn n (inbound p), nil_error))
    end.

Definition pipe_Write (p : pipe) (bs : list byte) : pipe * (Z * error) :=
  if closed p then (p, (0%Z, err_closed))
  else if write_broken p then (p, (0%Z, err_broken_pipe))
  else (mkPipe (inbound p) (outbound p ++ bs) (closed p) (write_broken p),
        (Z.of_nat (length bs), nil_error)).

Definition pipe_Close (p : pipe) : pipe * error :=
  (mkPipe (inbound p) (outbound p) true (write_broken p), nil_error).

#[export] Instance pipe_NetConn : NetConn pipe := {
  net_Read := pipe_Read;
  net_Write := pipe_Write;
  net_Close := pipe_Close
}.

(** Concrete connections used to run the definitions. *)
Definition semicolon : byte := x3b.

Definition idle_pipe : pipe := mkPipe [] [] false false.

Definition fresh : Conn pipe := NewConn idle_pipe nil_func semicolon.



Definition no_closures : nat -> list tick -> Conn pipe -> poll pipe unit :=
  fun _ _ c => Return tt nil_error c.


(** The peer has sent one delimiter and the Byte Reader has forwarded it. *)
Definition delimiter_pending : Conn pipe :=
  match reader_iteration [x00]
          (NewConn (mkPipe [semicolon] [] false false) nil_func semicolon) with
  | Done (_, c) => c
  | _ => fresh
  end.

(** An operation is queued, a delimiter is pending, and [Stop] was
    called. *)
Definition stopping_with_work : Conn pipe :=
  match QueueOperation (closure 0) delimiter_pending with
  | Some c => match Stop c with Done c' => c' | _ => fresh end
  | None => fresh
  end.

(** The peer has sent one byte, and writes fail. *)
Definition readable_write_broken : Conn pipe :=
  NewConn (mkPipe [x61] [] false true) nil_func semicolon.

(** The peer has closed its side, and writes fail. *)
Definition failing : Conn pipe :=
  NewConn (mkPipe [] [] false true) nil_func semicolon.

(** A connection whose [Read] stores no byte and reports no error, which
    the contract of [io.Reader] permits; its writes are dropped. *)
Record quiet : Type := mkQuiet { reads : nat }.

#[export] Instance quiet_NetConn : NetConn quiet := {
  net_Read := fun q _ => (mkQuiet (S (reads q)), ([], nil_error));
  net_Write := fun q bs => (q, (Z.of_nat (length bs), nil_error));
  net_Close := fun q => (q, nil_error)
}.

(** ** Steps of a connection *)

Section Transitions.
Context {N : Type} `{NetConn N}.

(** One step of a connection: a call of an exported method that returns,
    or an iteration of one of the two goroutines.  These are the steps that
    [reachable] closes [NewConn] under. *)
Inductive transition : Conn N -> Conn N -> Prop :=
| tr_SetMessageHandler f c :
    transition c (SetMessageHandler f c)
| tr_QueueOperation o c c' :
    QueueOperation o c = Some c' -> transition c c'
| tr_Stop c c' :
    Stop c = Done c' -> transition c c'
| tr_ReadMsg timeout ws c msg err c' :
    ReadMsg timeout ws c = Return msg err c' -> transition c c'
| tr_Read n timeout ws c out err c' :
    Read n timeout ws c = Return out err c' -> transition c c'
| tr_Write bs c :
    transition c (snd (Write bs c))
| tr_reader_forward minibuf c minibuf' c' :
    reader_iteration minibuf c = Done (minibuf', c') -> transition c c'
| tr_reader_exit minibuf c minibuf' c' :
    reader_iteration minibuf c = Exit (minibuf', c') -> transition c c'
| tr_scheduler_byte b ch c :
    recv (readChan c) = Some (b, ch) ->
    transition c (set_readBuf (readBuf c ++ [b]) (set_readChan ch c))
| tr_scheduler_op o ch c :
    recv (opChan c) = Some (o, ch) ->
    transition c (set_opChan ch c)
| tr_scheduler_stop c c' :
    stop_and_close c = ([], Returned c') -> transition c c'.

(** Any number of steps. *)
Definition transitions : Conn N -> Conn N -> Prop :=
  clos_refl_trans (Conn N) transition.

(** A callback that calls [ReadMsg(timeout)] once for each list of
    observations and collects the messages; [None] when one of the calls
    does not return a message. *)
Fixpoint ReadMsg_repeat (timeout : Duration) (wss : list (list tick))
         (c : Conn N) : option (list string * Conn N) :=
  match wss with
  | [] => Some ([], c)
  | ws :: wss' =>
      match ReadMsg timeout ws c with
      | Return msg nil_error c' =>
          match ReadMsg_repeat timeout wss' c' with
          | Some (msgs, c'') => Some (msg :: msgs, c'')
          | None => None
          end
      | _ => None
      end
  end.

(** The bytes of messages each followed by the delimiter, as successive
    [WriteMsg] calls pass them to [Write]. *)
Definition frames (delim : byte) (msgs : list string) : list byte :=
  concat (map (fun m => bytes_of_string m ++ [delim]) msgs).

(** What a single step keeps: the delimiter, the capacities and a set
    stopped flag; the operation queue grows by at most one operation, and
    only while it has room. *)
Definition kept (c c' : Conn N) : Prop :=
  msgDelim c' = msgDelim c /\
  cap (readChan c') = cap (readChan c) /\
  cap (opChan c') = cap (opChan c) /\
  cap (stopChan c') = cap (stopChan c) /\
  (isStopped c = true -> isStopped c' = true) /\
  (len (opChan c') <= len (opChan c) \/
   (len (opChan c) < cap (opChan c) /\ len (opChan c') = S (len (opChan c)))).

End Transitions.

(** * Properties *)

Unset Implicit Arguments.

(** ** Slices, channels and the scan *)

Lemma drain_app (pending buf : list byte) : drain pending buf = buf ++ pending.
Proof.
  revert buf; induction pending as [|b rest IH]; intros buf; simpl.
  - now rewrite app_nil_r.
  - now rewrite IH, <- app_assoc.
Qed.

Lemma copy_make_prefix (n : nat) (src : list byte) :
  n <= length src -> copy (make n) src = firstn n src.
Proof.
  intros Hn. unfold copy, make.
  rewrite repeat_length, Nat.min_l by exact Hn.
  rewrite skipn_all2 by (rewrite repeat_length; lia).
  apply app_nil_r.
Qed.

Lemma string_bytes_roundtrip (s : string) :
  string_of_bytes (bytes_of_string s) = s.
Proof. apply string_of_list_byte_of_string. Qed.

Lemma bytes_string_roundtrip (bs : list byte) :
  bytes_of_string (string_of_bytes bs) = bs.
Proof. apply list_byte_of_string_of_list_byte. Qed.

Lemma byte_eqb_refl (b : byte) : Byte.eqb b b = true.
Proof. now apply byte_dec_lb. Qed.

Lemma byte_eqb_neq (a b : byte) : a <> b -> Byte.eqb a b = false.
Proof.
  intros Hne. destruct (Byte.eqb a b) eqn:E; [|reflexivity].
  now apply byte_dec_bl in E.
Qed.

Lemma range_find_first (delim : byte) (pre post : list byte) (i : nat) :
  ~ In delim pre ->
  range_find delim (pre ++ delim :: post) i = Some (i + length pre).
Proof.
  revert i; induction pre as [|b pre IH]; intros i Hpre; simpl.
  - rewrite byte_eqb_refl. f_equal; lia.
  - rewrite byte_eqb_neq by (intros ->; apply Hpre; now left).
    rewrite IH by (intros Hin; apply Hpre; now right).
    f_equal; lia.
Qed.

Lemma range_find_none (delim : byte) (buf : list byte) (i : nat) :
  ~ In delim buf -> range_find delim buf i = None.
Proof.
  revert i; induction buf as [|b buf IH]; intros i Hbuf; simpl.
  - reflexivity.
  - rewrite byte_eqb_neq by (intros ->; apply Hbuf; now left).
    apply IH. intros Hin; apply Hbuf; now right.
Qed.

(** A position that holds the delimiter, with none before it, splits the
    buffer around the first delimiter. *)
Lemma first_position_split (delim : byte) (buf : list byte) (k : nat) :
  nth_error buf k = Some delim ->
  (forall j, j < k -> nth_error buf j <> Some delim) ->
  buf = firstn k buf ++ delim :: skipn (k + 1) buf /\
  ~ In delim (firstn k buf) /\ length (firstn k buf) = k.
Proof.
  intros Hk Hbefore.
  assert (Hlen : k < length buf) by (apply nth_error_Some; congruence).
  repeat split.
  - rewrite <- (firstn_skipn k buf) at 1. f_equal.
    replace (k + 1) with (S k) by lia.
    clear Hbefore Hlen. revert buf Hk.
    induction k as [|k IH]; intros [|b buf] Hk; simpl in *; try discriminate.
    + now injection Hk as ->.
    + now apply IH.
  - intros Hin. apply In_nth_error in Hin as [j Hj].
    assert (Hjk : j < k).
    { assert (Hj' : j < length (firstn k buf))
        by (apply nth_error_Some; congruence).
      rewrite length_firstn in Hj'. lia. }
    apply (Hbefore j Hjk).
    rewrite nth_error_firstn in Hj.
    apply Nat.ltb_lt in Hjk. now rewrite Hjk in Hj.
  - rewrite length_firstn. lia.
Qed.

Section PollFacts.
Context {N : Type} `{NetConn N}.

(** The state in which a polling iteration scans the Read Buffer. *)
Lemma drained_readBuf (bs : list byte) (c : Conn N) :
  readBuf (updateWholeBuffer (deliver bs c)) = unconsumed c ++ bs.
Proof.
  unfold updateWholeBuffer, deliver, unconsumed; simpl.
  now rewrite drain_app, app_assoc.
Qed.

Lemma drained_unconsumed (bs : list byte) (c : Conn N) :
  unconsumed (updateWholeBuffer (deliver bs c)) = unconsumed c ++ bs.
Proof.
  unfold unconsumed at 1. rewrite drained_readBuf. simpl. apply app_nil_r.
Qed.

Lemma drained_msgDelim (bs : list byte) (c : Conn N) :
  msgDelim (updateWholeBuffer (deliver bs c)) = msgDelim c.
Proof. reflexivity. Qed.

Lemma timed_out_zero (elapsed : Duration) : timed_out elapsed 0%Z = false.
Proof. unfold timed_out. simpl. apply andb_false_r. Qed.

Lemma timed_out_true (elapsed timeout : Duration) :
  timed_out elapsed timeout = true <-> (elapsed > timeout /\ timeout <> 0)%Z.
Proof.
  unfold timed_out. rewrite andb_true_iff, negb_true_iff, Z.eqb_neq.
  rewrite Z.gtb_gt. reflexivity.
Qed.

End PollFacts.

(** ** One iteration of the polling loops *)

Section PollSteps.
Context {N : Type} `{NetConn N}.
Implicit Types (c : Conn N) (w : tick) (ws : list tick).

Lemma ReadMsg_cons timeout w ws c :
  ReadMsg timeout (w :: ws) c =
  if timed_out (since w) timeout
  then Return EmptyString timeout_error c
  else
    let c1 := updateWholeBuffer (deliver (arrived w) c) in
    match range_find (msgDelim c1) (readBuf c1) 0 with
    | Some i =>
        let out := copy (make (i + 1)) (readBuf c1) in
        Return (string_of_bytes (slice_to out (length out - 1))) nil_error
               (set_readBuf (slice_from (readBuf c1) (i + 1)) c1)
    | None => ReadMsg timeout ws c1
    end.
Proof. reflexivity. Qed.

Lemma Read_cons n timeout w ws c :
  Read n timeout (w :: ws) c =
  if timed_out (since w) timeout
  then Return [] timeout_error c
  else
    let c1 := updateWholeBuffer (deliver (arrived w) c) in
    if Z.geb (Z.of_nat (length (readBuf c1))) n
    then
      if Z.ltb n 0 then Panic
      else
        let out := copy (make (Z.to_nat n)) (readBuf c1) in
        Return out nil_error
               (set_readBuf (slice_from (readBuf c1) (Z.to_nat n)) c1)
    else Read n timeout ws c1.
Proof. reflexivity. Qed.

Lemma ReadMsg_expired timeout w ws c :
  timed_out (since w) timeout = true ->
  ReadMsg timeout (w :: ws) c = Return EmptyString timeout_error c.
Proof. intros Hto. simpl. now rewrite Hto. Qed.

Lemma ReadMsg_found timeout w ws c pre post :
  timed_out (since w) timeout = false ->
  unconsumed c ++ arrived w = pre ++ msgDelim c :: post ->
  ~ In (msgDelim c) pre ->
  ReadMsg timeout (w :: ws) c =
  Return (string_of_bytes pre) nil_error
         (set_readBuf post (updateWholeBuffer (deliver (arrived w) c))).
Proof.
  intros Hto Hbuf Hpre. rewrite ReadMsg_cons, Hto. cbv zeta.
  rewrite drained_readBuf, drained_msgDelim, Hbuf.
  rewrite range_find_first by exact Hpre. simpl Nat.add.
  assert (Hfirst : firstn (length pre + 1) (pre ++ msgDelim c :: post)
                   = pre ++ [msgDelim c]).
  { rewrite firstn_app, firstn_all2 by lia.
    replace (length pre + 1 - length pre) with 1 by lia. reflexivity. }
  assert (Hskip : skipn (length pre + 1) (pre ++ msgDelim c :: post) = post).
  { rewrite skipn_app, skipn_all2 by lia.
    replace (length pre + 1 - length pre) with 1 by lia. reflexivity. }
  rewrite copy_make_prefix by (rewrite length_app; simpl; lia).
  unfold slice_to, slice_from. rewrite Hfirst, Hskip.
  rewrite length_app. simpl length.
  replace (length pre + 1 - 1) with (length pre) by lia.
  rewrite firstn_app, firstn_all, Nat.sub_diag. simpl firstn.
  now rewrite app_nil_r.
Qed.

Lemma ReadMsg_missing timeout w ws c :
  timed_out (since w) timeout = false ->
  ~ In (msgDelim c) (unconsumed c ++ arrived w) ->
  ReadMsg timeout (w :: ws) c =
  ReadMsg timeout ws (updateWholeBuffer (deliver (arrived w) c)).
Proof.
  intros Hto Hbuf. rewrite ReadMsg_cons, Hto. cbv zeta.
  rewrite drained_readBuf, drained_msgDelim.
  now rewrite range_find_none by exact Hbuf.
Qed.

Lemma Read_expired n timeout w ws c :
  timed_out (since w) timeout = true ->
  Read n timeout (w :: ws) c = Return [] timeout_error c.
Proof. intros Hto. simpl. now rewrite Hto. Qed.

Lemma Read_enough n timeout w ws c :
  timed_out (since w) timeout = false ->
  n <= length (unconsumed c ++ arrived w) ->
  Read (Z.of_nat n) timeout (w :: ws) c =
  Return (firstn n (unconsumed c ++ arrived w)) nil_error
         (set_readBuf (skipn n (unconsumed c ++ arrived w))
                      (updateWholeBuffer (deliver (arrived w) c))).
Proof.
  intros Hto Hlen. rewrite Read_cons, Hto. cbv zeta. rewrite drained_readBuf.
  replace (Z.of_nat (length (unconsumed c ++ arrived w)) >=? Z.of_nat n)%Z
    with true by (symmetry; apply Z.geb_le; lia).
  replace (Z.of_nat n <? 0)%Z with false by (symmetry; apply Z.ltb_ge; lia).
  rewrite Nat2Z.id, copy_make_prefix by exact Hlen.
  reflexivity.
Qed.

Lemma Read_short n timeout w ws c :
  timed_out (since w) timeout = false ->
  (Z.of_nat (length (unconsumed c ++ arrived w)) < n)%Z ->
  Read n timeout (w :: ws) c =
  Read n timeout ws (updateWholeBuffer (deliver (arrived w) c)).
Proof.
  intros Hto Hlen. rewrite Read_cons, Hto. cbv zeta. rewrite drained_readBuf.
  replace (Z.of_nat (length (unconsumed c ++ arrived w)) >=? n)%Z
    with false by (symmetry; rewrite Z.geb_leb; apply Z.leb_gt; lia).
  reflexivity.
Qed.

End PollSteps.

(** ** Where the first delimiter is *)

Lemma in_split_first (d : byte) (l : list byte) :
  In d l -> exists pre post, l = pre ++ d :: post /\ ~ In d pre.
Proof.
  induction l as [|b l IH]; intros Hin; [contradiction|].
  destruct (byte_eq_dec b d) as [->|Hne].
  - exists [], l. split; [reflexivity|intros []].
  - destruct Hin as [Heq|Hin]; [contradiction|].
    destruct (IH Hin) as (pre & post & -> & Hpre).
    exists (b :: pre), post. split; [reflexivity|].
    intros [Heq|Hin']; [now apply Hne|now apply Hpre].
Qed.

Lemma first_split_unique (d : byte) (l1 r1 l2 r2 : list byte) :
  l1 ++ d :: r1 = l2 ++ d :: r2 -> ~ In d l1 -> ~ In d l2 ->
  l1 = l2 /\ r1 = r2.
Proof.
  revert l2; induction l1 as [|a l1 IH]; intros [|b l2] Heq H1 H2;
    simpl in *.
  - injection Heq as ->. now split.
  - injection Heq as <- _. exfalso. apply H2. now left.
  - injection Heq as -> _. exfalso. apply H1. now left.
  - injection Heq as -> Heq.
    destruct (IH l2 Heq) as [-> ->].
    + intros Hin. apply H1. now right.
    + intros Hin. apply H2. now right.
    + now split.
Qed.

Section Framing.
Context {N : Type} `{NetConn N}.
Implicit Types (c : Conn N) (w : tick) (ws : list tick).

(** A message whose bytes arrive over several iterations, the delimiter
    last, is returned by the iteration that receives the delimiter. *)
Lemma ReadMsg_when_delimiter_arrives timeout ws c pre :
  ~ In (msgDelim c) pre ->
  ~ In (msgDelim c) (unconsumed c) ->
  unconsumed c ++ concat (map arrived ws) = pre ++ [msgDelim c] ->
  Forall (fun w => timed_out (since w) timeout = false) ws ->
  exists c',
    ReadMsg timeout ws c = Return (string_of_bytes pre) nil_error c' /\
    unconsumed c' = [].
Proof.
  revert c; induction ws as [|w ws IH]; intros c Hpre Hnot Hall Hto.
  - simpl in Hall. rewrite app_nil_r in Hall. exfalso. apply Hnot.
    rewrite Hall. apply in_or_app. right. now left.
  - inversion Hto as [|? ? Hw Hws]; subst.
    simpl in Hall. rewrite app_assoc in Hall.
    destruct (in_dec byte_eq_dec (msgDelim c) (unconsumed c ++ arrived w))
      as [Hin|Hout].
    + destruct (in_split_first _ _ Hin) as (pre' & post' & Hsplit & Hpre').
      rewrite Hsplit, <- app_assoc in Hall. simpl in Hall.
      apply first_split_unique in Hall as [-> Hrest];
        [|exact Hpre'|exact Hpre].
      apply app_eq_nil in Hrest as [-> _].
      eexists. split.
      * eapply ReadMsg_found; eassumption.
      * reflexivity.
    + rewrite ReadMsg_missing by assumption.
      apply IH.
      * exact Hpre.
      * now rewrite drained_unconsumed.
      * now rewrite drained_unconsumed.
      * exact Hws.
Qed.

End Framing.

(** ** Nothing is lost and nothing is read twice *)

Section Conservation.
Context {N : Type} `{NetConn N}.
Implicit Types (c : Conn N) (w : tick) (ws : list tick).

Lemma Read_negative n timeout w ws c :
  timed_out (since w) timeout = false -> (n < 0)%Z ->
  Read n timeout (w :: ws) c = Panic.
Proof.
  intros Hto Hn. rewrite Read_cons, Hto. cbv zeta.
  replace (Z.of_nat (length (readBuf (updateWholeBuffer (deliver (arrived w) c))))
           >=? n)%Z with true by (symmetry; apply Z.geb_le; lia).
  now replace (n <? 0)%Z with true by (symmetry; apply Z.ltb_lt; lia).
Qed.

Lemma unconsumed_after_cut (rest : list byte) bs c :
  unconsumed (set_readBuf rest (updateWholeBuffer (deliver bs c))) = rest.
Proof. unfold unconsumed. simpl. apply app_nil_r. Qed.

(** The bytes [Read] returns, followed by the bytes left unconsumed, are
    the bytes that were unconsumed followed by those that arrived while
    the call polled. *)
Lemma Read_conserves n timeout ws c out err c' :
  Read n timeout ws c = Return out err c' ->
  exists k, k <= length ws /\
    out ++ unconsumed c' = unconsumed c ++ concat (map arrived (firstn k ws)).
Proof.
  revert c; induction ws as [|w ws IH]; intros c Hret; [discriminate|].
  destruct (timed_out (since w) timeout) eqn:Hto.
  - rewrite Read_expired in Hret by exact Hto.
    injection Hret as <- _ <-. exists 0. split; [simpl; lia|].
    simpl. now rewrite app_nil_r.
  - destruct (Z_lt_le_dec n 0) as [Hneg|Hpos].
    { rewrite Read_negative in Hret by assumption. discriminate. }
    destruct (Z_lt_le_dec (Z.of_nat (length (unconsumed c ++ arrived w))) n)
      as [Hshort|Henough].
    + rewrite Read_short in Hret by assumption.
      destruct (IH _ Hret) as (k & Hk & Heq).
      exists (S k). split; [simpl; lia|].
      rewrite Heq, drained_unconsumed. simpl. now rewrite <- app_assoc.
    + rewrite <- (Z2Nat.id n Hpos) in Hret.
      rewrite Read_enough in Hret by (assumption || lia).
      injection Hret as <- _ <-. exists 1. split; [simpl; lia|].
      rewrite unconsumed_after_cut, firstn_skipn. simpl.
      now rewrite app_nil_r.
Qed.

(** The same for [ReadMsg], which also takes the delimiter. *)
Lemma ReadMsg_conserves timeout ws c msg err c' :
  ReadMsg timeout ws c = Return msg err c' ->
  exists k, k <= length ws /\
    (if is_nil err then bytes_of_string msg ++ [msgDelim c] else [])
      ++ unconsumed c'
    = unconsumed c ++ concat (map arrived (firstn k ws)).
Proof.
  revert c; induction ws as [|w ws IH]; intros c Hret; [discriminate|].
  destruct (timed_out (since w) timeout) eqn:Hto.
  - rewrite ReadMsg_expired in Hret by exact Hto.
    injection Hret as <- <- <-. exists 0. split; [simpl; lia|].
    simpl. now rewrite app_nil_r.
  - destruct (in_dec byte_eq_dec (msgDelim c) (unconsumed c ++ arrived w))
      as [Hin|Hout].
    + destruct (in_split_first _ _ Hin) as (pre & post & Hsplit & Hpre).
      erewrite ReadMsg_found in Hret by eassumption.
      injection Hret as <- <- <-. exists 1. split; [simpl; lia|].
      rewrite unconsumed_after_cut, bytes_string_roundtrip. simpl.
      now rewrite app_nil_r, Hsplit, <- app_assoc.
    + rewrite ReadMsg_missing in Hret by assumption.
      destruct (IH _ Hret) as (k & Hk & Heq).
      exists (S k). split; [simpl; lia|].
      rewrite drained_msgDelim, drained_unconsumed in Heq.
      rewrite Heq. simpl. now rewrite <- app_assoc.
Qed.

Lemma perform_conserves (r : request) c taken err c' :
  perform r c = Return taken err c' ->
  exists k, k <= length (observations r) /\
    taken ++ unconsumed c'
    = unconsumed c ++ concat (map arrived (firstn k (observations r))).
Proof.
  destruct r as [n timeout ws|timeout ws]; simpl.
  - apply Read_conserves.
  - destruct (ReadMsg timeout ws c) as [msg e c1| |c1] eqn:Hcall;
      try discriminate.
    intros Hret. injection Hret as <- <- <-.
    now apply ReadMsg_conserves in Hcall.
Qed.

Lemma perform_all_conserves (rs : list request) c takens c' :
  perform_all rs c = Some (takens, c') ->
  exists ks,
    Forall2 (fun k r => k <= length (observations r)) ks rs /\
    concat takens ++ unconsumed c' = unconsumed c ++ arrivals ks rs.
Proof.
  revert c takens; induction rs as [|r rs IH]; intros c takens Hrun;
    simpl in Hrun.
  - injection Hrun as <- <-. exists []. split; [constructor|].
    simpl. now rewrite app_nil_r.
  - destruct (perform r c) as [taken e c1| |c1] eqn:Hcall; try discriminate.
    destruct (perform_all rs c1) as [[takens' c2]|] eqn:Hrest;
      try discriminate.
    injection Hrun as <- <-.
    destruct (perform_conserves _ _ _ _ _ Hcall) as (k & Hk & Heq).
    destruct (IH _ _ Hrest) as (ks & Hks & Heqs).
    exists (k :: ks). split; [now constructor|].
    simpl. rewrite <- app_assoc, Heqs, !app_assoc. now rewrite Heq.
Qed.

End Conservation.

(** ** Timeouts *)

Section Timeouts.
Context {N : Type} `{NetConn N}.
Implicit Types (c : Conn N) (w : tick) (ws : list tick).

Lemma not_timed_out_le elapsed timeout :
  timed_out elapsed timeout = false -> timeout <> 0%Z ->
  (elapsed <= timeout)%Z.
Proof.
  unfold timed_out. intros Hto Hnz.
  apply andb_false_iff in Hto as [Hgt|Hz].
  - rewrite Z.gtb_ltb in Hgt. apply Z.ltb_ge in Hgt. exact Hgt.
  - apply negb_false_iff, Z.eqb_eq in Hz. contradiction.
Qed.

(** With no delimiter in sight, [ReadMsg] gives up at the first iteration
    whose clock reading exceeds the timeout, having consumed nothing. *)
Lemma ReadMsg_times_out timeout ws c :
  timeout <> 0%Z ->
  ~ In (msgDelim c) (unconsumed c ++ concat (map arrived ws)) ->
  Exists (fun w => (since w > timeout)%Z) ws ->
  exists k w c',
    nth_error ws k = Some w /\ (since w > timeout)%Z /\
    Forall (fun w' => (since w' <= timeout)%Z) (firstn k ws) /\
    ReadMsg timeout ws c = Return EmptyString timeout_error c' /\
    unconsumed c' = unconsumed c ++ concat (map arrived (firstn k ws)).
Proof.
  intros Hnz. revert c. induction ws as [|w ws IH]; intros c Hnever Hex.
  - inversion Hex.
  - destruct (timed_out (since w) timeout) eqn:Hto.
    + exists 0, w, c. simpl. repeat split.
      * now apply timed_out_true in Hto.
      * constructor.
      * now apply ReadMsg_expired.
      * now rewrite app_nil_r.
    + pose proof (not_timed_out_le _ _ Hto Hnz) as Hle.
      assert (Hex' : Exists (fun w => (since w > timeout)%Z) ws)
        by (inversion Hex; subst; [lia|assumption]).
      simpl in Hnever. rewrite app_assoc in Hnever.
      destruct (IH (updateWholeBuffer (deliver (arrived w) c)))
        as (k & w' & c' & Hnth & Hgt & Hbefore & Hret & Hleft).
      * now rewrite drained_msgDelim, drained_unconsumed.
      * exact Hex'.
      * exists (S k), w', c'. repeat split; try assumption.
        -- simpl. now constructor.
        -- rewrite ReadMsg_missing; [exact Hret|exact Hto|].
           intros Hin. apply Hnever. apply in_or_app. now left.
        -- simpl. now rewrite Hleft, drained_unconsumed, <- app_assoc.
Qed.

(** The same for [Read] while fewer than [n] bytes are there. *)
Lemma Read_times_out n timeout ws c :
  timeout <> 0%Z ->
  (Z.of_nat (length (unconsumed c ++ concat (map arrived ws))) < n)%Z ->
  Exists (fun w => (since w > timeout)%Z) ws ->
  exists k w c',
    nth_error ws k = Some w /\ (since w > timeout)%Z /\
    Forall (fun w' => (since w' <= timeout)%Z) (firstn k ws) /\
    Read n timeout ws c = Return [] timeout_error c' /\
    unconsumed c' = unconsumed c ++ concat (map arrived (firstn k ws)).
Proof.
  intros Hnz. revert c. induction ws as [|w ws IH]; intros c Hnever Hex.
  - inversion Hex.
  - destruct (timed_out (since w) timeout) eqn:Hto.
    + exists 0, w, c. simpl. repeat split.
      * now apply timed_out_true in Hto.
      * constructor.
      * now apply Read_expired.
      * now rewrite app_nil_r.
    + pose proof (not_timed_out_le _ _ Hto Hnz) as Hle.
      assert (Hex' : Exists (fun w => (since w > timeout)%Z) ws)
        by (inversion Hex; subst; [lia|assumption]).
      simpl in Hnever. rewrite app_assoc in Hnever.
      destruct (IH (updateWholeBuffer (deliver (arrived w) c)))
        as (k & w' & c' & Hnth & Hgt & Hbefore & Hret & Hleft).
      * now rewrite drained_unconsumed.
      * exact Hex'.
      * exists (S k), w', c'. repeat split; try assumption.
        -- simpl. now constructor.
        -- rewrite Read_short; [exact Hret|exact Hto|].
           rewrite length_app in Hnever. lia.
        -- simpl. now rewrite Hleft, drained_unconsumed, <- app_assoc.
Qed.

(** Without a timeout the loops keep polling for as long as their
    condition fails. *)
Lemma ReadMsg_untimed_waits ws c :
  ~ In (msgDelim c) (unconsumed c ++ concat (map arrived ws)) ->
  exists c', ReadMsg 0%Z ws c = Spin c' /\
             unconsumed c' = unconsumed c ++ concat (map arrived ws).
Proof.
  revert c. induction ws as [|w ws IH]; intros c Hnever.
  - exists c. simpl. now rewrite app_nil_r.
  - simpl in Hnever. rewrite app_assoc in Hnever.
    destruct (IH (updateWholeBuffer (deliver (arrived w) c)))
      as (c' & Hspin & Hleft).
    + now rewrite drained_msgDelim, drained_unconsumed.
    + exists c'. split.
      * rewrite ReadMsg_missing; [exact Hspin|apply timed_out_zero|].
        intros Hin. apply Hnever. apply in_or_app. now left.
      * simpl. now rewrite Hleft, drained_unconsumed, <- app_assoc.
Qed.

Lemma Read_untimed_waits n ws c :
  (Z.of_nat (length (unconsumed c ++ concat (map arrived ws))) < n)%Z ->
  exists c', Read n 0%Z ws c = Spin c' /\
             unconsumed c' = unconsumed c ++ concat (map arrived ws).
Proof.
  revert c. induction ws as [|w ws IH]; intros c Hnever.
  - exists c. simpl. now rewrite app_nil_r.
  - simpl in Hnever. rewrite app_assoc in Hnever.
    destruct (IH (updateWholeBuffer (deliver (arrived w) c)))
      as (c' & Hspin & Hleft).
    + now rewrite drained_unconsumed.
    + exists c'. split.
      * rewrite Read_short; [exact Hspin|apply timed_out_zero|].
        rewrite length_app in Hnever. lia.
      * simpl. now rewrite Hleft, drained_unconsumed, <- app_assoc.
Qed.

(** A call that returns an error has met its timeout guard. *)
Lemma ReadMsg_error_is_timeout timeout ws c msg err c' :
  ReadMsg timeout ws c = Return msg err c' -> err <> nil_error ->
  timeout <> 0%Z /\ Exists (fun w => (since w > timeout)%Z) ws.
Proof.
  revert c. induction ws as [|w ws IH]; intros c Hret Herr; [discriminate|].
  rewrite ReadMsg_cons in Hret.
  destruct (timed_out (since w) timeout) eqn:Hto.
  - apply timed_out_true in Hto as [Hgt Hnz]. split; [exact Hnz|].
    now constructor.
  - cbv zeta in Hret.
    destruct (range_find _ _ 0) in Hret.
    + injection Hret as _ <- _. contradiction.
    + destruct (IH _ Hret Herr) as [Hnz Hex]. split; [exact Hnz|].
      now apply Exists_cons_tl.
Qed.

Lemma Read_error_is_timeout n timeout ws c out err c' :
  Read n timeout ws c = Return out err c' -> err <> nil_error ->
  timeout <> 0%Z /\ Exists (fun w => (since w > timeout)%Z) ws.
Proof.
  revert c. induction ws as [|w ws IH]; intros c Hret Herr; [discriminate|].
  rewrite Read_cons in Hret.
  destruct (timed_out (since w) timeout) eqn:Hto.
  - apply timed_out_true in Hto as [Hgt Hnz]. split; [exact Hnz|].
    now constructor.
  - cbv zeta in Hret.
    destruct (Z.geb _ n) in Hret.
    + destruct (Z.ltb n 0) in Hret; [discriminate|].
      injection Hret as _ <- _. contradiction.
    + destruct (IH _ Hret Herr) as [Hnz Hex]. split; [exact Hnz|].
      now apply Exists_cons_tl.
Qed.

End Timeouts.

(** ** What polling leaves alone *)

Section Frames.
Context {N : Type} `{NetConn N}.
Implicit Types (c : Conn N) (w : tick) (ws : list tick).

Lemma polled_refl c : polled c c.
Proof. unfold polled. intuition. Qed.

Lemma polled_drained bs c c' :
  polled (updateWholeBuffer (deliver bs c)) c' -> polled c c'.
Proof. unfold polled. simpl. intuition. Qed.

Lemma polled_cut rest bs c :
  polled c (set_readBuf rest (updateWholeBuffer (deliver bs c))).
Proof. unfold polled. simpl. intuition. Qed.

Lemma ReadMsg_polled timeout ws c msg err c' :
  ReadMsg timeout ws c = Return msg err c' -> polled c c'.
Proof.
  revert c. induction ws as [|w ws IH]; intros c Hret; [discriminate|].
  rewrite ReadMsg_cons in Hret.
  destruct (timed_out (since w) timeout).
  - injection Hret as _ _ <-. apply polled_refl.
  - cbv zeta in Hret. destruct (range_find _ _ 0) in Hret.
    + injection Hret as _ _ <-. apply polled_cut.
    + eapply polled_drained, IH, Hret.
Qed.

Lemma Read_polled n timeout ws c out err c' :
  Read n timeout ws c = Return out err c' -> polled c c'.
Proof.
  revert c. induction ws as [|w ws IH]; intros c Hret; [discriminate|].
  rewrite Read_cons in Hret.
  destruct (timed_out (since w) timeout).
  - injection Hret as _ _ <-. apply polled_refl.
  - cbv zeta in Hret. destruct (Z.geb _ n) in Hret.
    + destruct (Z.ltb n 0) in Hret; [discriminate|].
      injection Hret as _ _ <-. apply polled_cut.
    + eapply polled_drained, IH, Hret.
Qed.

Lemma polled_inv c c' : polled c c' -> conn_inv c -> conn_inv c'.
Proof.
  unfold polled, conn_inv, len.
  intros (_ & Hcap & Hq & -> & -> & _ & -> & ->) Hinv.
  rewrite Hcap. destruct Hq as [-> | ->]; simpl; intuition lia.
Qed.

Lemma send_Some (A : Type) (ch ch' : chan A) (x : A) :
  send ch x = Some ch' ->
  len ch < cap ch /\ cap ch' = cap ch /\ queue ch' = queue ch ++ [x].
Proof.
  unfold send. destruct (Nat.ltb_spec (len ch) (cap ch)); [|discriminate].
  intros Heq. injection Heq as <-. now repeat split.
Qed.

Lemma send_None (A : Type) (ch : chan A) (x : A) :
  send ch x = None <-> cap ch <= len ch.
Proof.
  unfold send. destruct (Nat.ltb_spec (len ch) (cap ch)); split;
    intros; (discriminate || lia || reflexivity).
Qed.

Lemma recv_Some (A : Type) (ch ch' : chan A) (x : A) :
  recv ch = Some (x, ch') ->
  cap ch' = cap ch /\ queue ch = x :: queue ch'.
Proof.
  unfold recv. destruct (queue ch) as [|y rest]; [discriminate|].
  intros Heq. injection Heq as <- <-. now split.
Qed.

Lemma Stop_inv c c' : Stop c = Done c' -> conn_inv c -> conn_inv c'.
Proof.
  unfold Stop. destruct (isStopped c) eqn:Hs.
  - intros Heq. now injection Heq as <-.
  - destruct (send _ true) as [ch|] eqn:Hsend; [|discriminate].
    intros Heq. injection Heq as <-.
    apply send_Some in Hsend as (_ & Hcap & Hq). simpl in Hcap, Hq.
    unfold conn_inv, len. simpl.
    intros (? & ? & ? & ? & Hidle & ? & ?).
    rewrite Hcap, Hq, (Hidle Hs). simpl.
    repeat split; try assumption; try lia; discriminate.
Qed.

(** Every reachable state satisfies the invariant. *)
Lemma reachable_inv c : reachable c -> conn_inv c.
Proof.
  induction 1 as
    [nc handler delim
    |f c _ IH
    |o c c' _ IH Hq
    |c c' _ IH Hstop
    |timeout ws c msg err c' _ IH Hret
    |n timeout ws c out err c' _ IH Hret
    |bs c _ IH
    |minibuf c minibuf' c' _ IH Hstep
    |minibuf c minibuf' c' _ IH Hstep
    |b ch c _ IH Hrecv
    |o ch c _ IH Hrecv
    |c c' _ IH Hstep].
  - unfold conn_inv, NewConn, len. simpl.
    repeat split; try lia. now destruct handler.
  - unfold conn_inv, SetMessageHandler in *. simpl.
    destruct IH as (? & ? & ? & ? & ? & ? & ?).
    repeat split; try assumption. now destruct f.
  - unfold QueueOperation in Hq.
    destruct (send (opChan c) o) as [ch|] eqn:Hsend; [|discriminate].
    injection Hq as <-. apply send_Some in Hsend as (_ & Hcap & _).
    unfold conn_inv in *. simpl. now rewrite Hcap.
  - eapply Stop_inv; eassumption.
  - eapply polled_inv; [eapply ReadMsg_polled|]; eassumption.
  - eapply polled_inv; [eapply Read_polled|]; eassumption.
  - unfold Write. destruct (net_Write (netconn c) bs) as [nc r]. exact IH.
  - unfold reader_iteration in Hstep.
    destruct (isStopped c) eqn:Hs; [discriminate|].
    destruct (net_Read (netconn c) (length minibuf)) as [nc [data err]].
    destruct (is_nil err); simpl in Hstep.
    + destruct (send _ _) as [ch|] eqn:Hsend in Hstep; [|discriminate].
      injection Hstep as _ <-.
      apply send_Some in Hsend as (Hlt & Hcap & Hq).
      simpl in Hlt, Hcap, Hq.
      unfold conn_inv, len in *. simpl. rewrite Hcap, Hq, length_app.
      simpl. intuition lia.
    + destruct (Stop (set_netconn nc c)); discriminate.
  - unfold reader_iteration in Hstep.
    destruct (isStopped c) eqn:Hs.
    + now injection Hstep as _ <-.
    + destruct (net_Read (netconn c) (length minibuf)) as [nc [data err]].
      destruct (is_nil err); simpl in Hstep.
      * destruct (send _ _) in Hstep; discriminate.
      * destruct (Stop (set_netconn nc c)) as [c1|c1|c1] eqn:Hstop;
          try discriminate; injection Hstep as _ <-.
        -- eapply Stop_inv; [exact Hstop|exact IH].
        -- unfold Stop in Hstop. simpl in Hstop. rewrite Hs in Hstop.
           destruct (send _ true) in Hstop; discriminate.
  - apply recv_Some in Hrecv as (Hcap & Hq).
    unfold conn_inv, len in *. simpl. rewrite Hcap.
    rewrite Hq in IH. simpl in IH. intuition lia.
  - apply recv_Some in Hrecv as (Hcap & _).
    unfold conn_inv in *. simpl. now rewrite Hcap.
  - unfold stop_and_close in Hstep.
    destruct (recv (stopChan c)) as [[s ch]|] eqn:Hrecv; [|discriminate].
    destruct (net_Close (netconn c)) as [nc e].
    injection Hstep as <-. apply recv_Some in Hrecv as (Hcap & Hq).
    unfold conn_inv, len in *. simpl. rewrite Hcap.
    rewrite Hq in IH. simpl in IH.
    destruct IH as (? & ? & ? & ? & Hidle & ? & ?).
    repeat split; try assumption; try lia.
    intros Hs. specialize (Hidle Hs). discriminate.
Qed.

End Frames.

(** ** Shutdown *)

(** An iteration that finds a stop signal pending takes it and returns. *)
Lemma scheduler_iteration_stop_pending
  {N : Type} `{NetConn N}
  (closures : nat -> list tick -> Conn N -> poll N unit)
  (c : Conn N) (pick : select_case) (ws : list tick) :
  0 < len (stopChan c) ->
  exists c',
    scheduler_iteration closures pick ws c = ([], Returned c') /\
    netconn c' = fst (net_Close (netconn c)) /\
    len (stopChan c) = S (len (stopChan c')) /\
    readBuf c' = readBuf c /\
    readChan c' = readChan c /\
    opChan c' = opChan c /\
    msgHandler c' = msgHandler c /\
    isStopped c' = isStopped c.
Proof.
  intros Hpending. unfold scheduler_iteration.
  replace (Nat.ltb 0 (len (stopChan c))) with true
    by (symmetry; now apply Nat.ltb_lt).
  unfold stop_and_close, recv, len in *.
  destruct (queue (stopChan c)) as [|s q]; [simpl in Hpending; lia|].
  destruct (net_Close (netconn c)) as [nc e].
  eexists. repeat split.
Qed.


(** * The claims *)

(** C1.  Let [buf] be the received and unconsumed bytes that a [ReadMsg]
    call scans (the Read Buffer once the Pending Byte Queue is drained into
    it), and let the first delimiter of [buf] be at position [k].  A call
    that passes its timeout guard returns the first [k] bytes of [buf] as
    the message, without the delimiter and with a nil error, and the
    unconsumed bytes it leaves are [buf] from position [k + 1] on: the
    delimiter is consumed and not returned. *)
Theorem ReadMsg_returns_up_to_first_delimiter
  {N : Type} `{NetConn N} (c : Conn N) (timeout : Duration)
  (w : tick) (ws : list tick) (buf : list byte) (k : nat) :
  timed_out (since w) timeout = false ->
  buf = unconsumed c ++ arrived w ->
  nth_error buf k = Some (msgDelim c) ->
  (forall j, j < k -> nth_error buf j <> Some (msgDelim c)) ->
  exists c',
    ReadMsg timeout (w :: ws) c
    = Return (string_of_bytes (firstn k buf)) nil_error c' /\
    bytes_of_string (string_of_bytes (firstn k buf)) = firstn k buf /\
    readBuf c' = skipn (k + 1) buf /\
    queue (readChan c') = [] /\
    unconsumed c' = skipn (k + 1) buf.
Proof.
  intros Hto Hbuf Hk Hbefore.
  destruct (first_position_split _ _ _ Hk Hbefore) as (Hsplit & Hpre & _).
  exists (set_readBuf (skipn (k + 1) buf)
                      (updateWholeBuffer (deliver (arrived w) c))).
  repeat split.
  - apply ReadMsg_found; [exact Hto| |exact Hpre].
    now rewrite <- Hbuf.
  - apply bytes_string_roundtrip.
  - apply unconsumed_after_cut.
Qed.

Lemma ReadMsg_returns_up_to_first_delimiter_witness :
  exists c',
    ReadMsg 5%Z [mkTick 3%Z (bytes_of_string "ab;cd")] fresh
    = Return "ab"%string nil_error c' /\
    bytes_of_string "ab" = [x61; x62] /\
    readBuf c' = [x63; x64] /\
    queue (readChan c') = [] /\
    unconsumed c' = [x63; x64].
Proof.
  apply (@ReadMsg_returns_up_to_first_delimiter pipe _ fresh 5%Z
           (mkTick 3%Z (bytes_of_string "ab;cd")) []
           (bytes_of_string "ab;cd") 2).
  - reflexivity.
  - reflexivity.
  - reflexivity.
  - intros [|[|j]] Hj; simpl; [discriminate|discriminate|lia].
Defined.

(** C2.  Over a connection whose writes go through (the in-memory
    connection, open and with a working write side), [WriteMsg] makes one
    [Write] of the message's bytes followed by the delimiter, and the
    connection it leaves has exactly those bytes added to what was sent.
    When the message does not contain the delimiter and a peer with the
    same delimiter and nothing unconsumed receives the bytes that this call
    added, however they are spread over the iterations of its polling
    loop, a [ReadMsg] that does not time out returns the original message
    and leaves nothing unconsumed. *)
Theorem WriteMsg_ReadMsg_roundtrip
  {M : Type} `{NetConn M}
  (a : Conn pipe) (b : Conn M) (msg : string)
  (timeout : Duration) (ws : list tick) :
  closed (netconn a) = false ->
  write_broken (netconn a) = false ->
  ~ In (msgDelim a) (bytes_of_string msg) ->
  msgDelim b = msgDelim a ->
  unconsumed b = [] ->
  outbound (netconn (snd (WriteMsg msg a)))
  = outbound (netconn a) ++ concat (map arrived ws) ->
  Forall (fun w => timed_out (since w) timeout = false) ws ->
  WriteMsg msg a = Write (bytes_of_string msg ++ [msgDelim a]) a /\
  WriteMsg msg a
  = ((Z.of_nat (length (bytes_of_string msg ++ [msgDelim a])), nil_error),
     set_netconn
       (mkPipe (inbound (netconn a))
               (outbound (netconn a) ++ bytes_of_string msg ++ [msgDelim a])
               false false)
       a) /\
  concat (map arrived ws) = bytes_of_string msg ++ [msgDelim a] /\
  exists b',
    ReadMsg timeout ws b = Return msg nil_error b' /\
    unconsumed b' = [].
Proof.
  intros Hopen Hworks Hclean Hdelim Hempty Hwire Hto.
  assert (Hwrite :
            WriteMsg msg a
            = ((Z.of_nat (length (bytes_of_string msg ++ [msgDelim a])),
                nil_error),
               set_netconn
                 (mkPipe (inbound (netconn a))
                         (outbound (netconn a)
                          ++ bytes_of_string msg ++ [msgDelim a])
                         false false)
                 a)).
  { unfold WriteMsg, Write. cbn [net_Write pipe_NetConn].
    unfold pipe_Write. rewrite Hopen, Hworks. reflexivity. }
  assert (Harrive : concat (map arrived ws)
                    = bytes_of_string msg ++ [msgDelim a]).
  { rewrite Hwrite in Hwire. simpl in Hwire.
    apply app_inv_head in Hwire. now symmetry. }
  split; [reflexivity|]. split; [exact Hwrite|]. split; [exact Harrive|].
  rewrite <- Hdelim in Hclean, Harrive.
  destruct (ReadMsg_when_delimiter_arrives timeout ws b
              (bytes_of_string msg)) as (b' & Hret & Hleft).
  - exact Hclean.
  - rewrite Hempty. intros [].
  - now rewrite Hempty.
  - exact Hto.
  - exists b'. now rewrite string_bytes_roundtrip in Hret.
Qed.

Lemma WriteMsg_ReadMsg_roundtrip_witness :
  WriteMsg "ping" fresh = Write (bytes_of_string "ping;") fresh /\
  WriteMsg "ping" fresh
  = ((5%Z, nil_error),
     set_netconn (mkPipe [] (bytes_of_string "ping;") false false) fresh) /\
  concat (map arrived [mkTick 1%Z (bytes_of_string "pi");
                       mkTick 2%Z (bytes_of_string "ng;")])
  = bytes_of_string "ping;" /\
  exists b',
    ReadMsg 0%Z [mkTick 1%Z (bytes_of_string "pi");
                 mkTick 2%Z (bytes_of_string "ng;")] fresh
    = Return "ping"%string nil_error b' /\
    unconsumed b' = [].
Proof.
  refine (@WriteMsg_ReadMsg_roundtrip pipe _ fresh fresh "ping" 0%Z
            [mkTick 1%Z (bytes_of_string "pi");
             mkTick 2%Z (bytes_of_string "ng;")] _ _ _ _ _ _ _).
  - reflexivity.
  - reflexivity.
  - simpl. intros [E|[E|[E|[E|[]]]]]; discriminate E.
  - reflexivity.
  - reflexivity.
  - reflexivity.
  - repeat constructor.
Defined.

(** C3.  When the Read Buffer, once the Pending Byte Queue is drained into
    it, holds at least [n] bytes, a [Read] of [n] bytes that passes its
    timeout guard returns the first [n] of them in arrival order and
    removes exactly those from the front.  Over any sequence of [Read] and
    [ReadMsg] calls made one after the other, the bytes the calls took,
    in order, followed by the bytes still unconsumed, are exactly the
    bytes that were unconsumed at the start followed by those that arrived
    while the calls polled: each byte is taken at most once, in arrival
    order, with no gap. *)
Theorem Read_takes_prefix_in_arrival_order
  {N : Type} `{NetConn N} (c : Conn N) (n : nat) (timeout : Duration)
  (w : tick) (ws : list tick) (buf : list byte)
  (c0 : Conn N) (rs : list request) (takens : list (list byte))
  (c_end : Conn N) :
  timed_out (since w) timeout = false ->
  buf = unconsumed c ++ arrived w ->
  n <= length buf ->
  perform_all rs c0 = Some (takens, c_end) ->
  (exists c',
     Read (Z.of_nat n) timeout (w :: ws) c = Return (firstn n buf) nil_error c' /\
     length (firstn n buf) = n /\
     unconsumed c' = skipn n buf /\
     firstn n buf ++ unconsumed c' = buf) /\
  (exists ks,
     Forall2 (fun k r => k <= length (observations r)) ks rs /\
     concat takens ++ unconsumed c_end = unconsumed c0 ++ arrivals ks rs).
Proof.
  intros Hto Hbuf Hlen Hrun. split.
  - exists (set_readBuf (skipn n buf)
                        (updateWholeBuffer (deliver (arrived w) c))).
    repeat split.
    + subst buf. now apply Read_enough.
    + rewrite length_firstn. lia.
    + apply unconsumed_after_cut.
    + rewrite unconsumed_after_cut. apply firstn_skipn.
  - now apply perform_all_conserves.
Qed.

Lemma Read_takes_prefix_in_arrival_order_witness :
  (exists c',
     Read 3%Z 0%Z [mkTick 7%Z (bytes_of_string "ab;cd")] fresh
     = Return (bytes_of_string "ab;") nil_error c' /\
     length (bytes_of_string "ab;") = 3 /\
     unconsumed c' = bytes_of_string "cd" /\
     bytes_of_string "ab;" ++ unconsumed c' = bytes_of_string "ab;cd") /\
  (exists ks,
     Forall2 (fun k r => k <= length (observations r)) ks
             [call_Read 1%Z 0%Z [mkTick 0%Z (bytes_of_string "ab;cd")];
              call_ReadMsg 9%Z [mkTick 4%Z []];
              call_Read 5%Z 2%Z [mkTick 1%Z []; mkTick 3%Z []]] /\
     concat [[x61]; [x62; x3b]; []] ++ [x63; x64]
     = unconsumed fresh ++
       arrivals ks
         [call_Read 1%Z 0%Z [mkTick 0%Z (bytes_of_string "ab;cd")];
          call_ReadMsg 9%Z [mkTick 4%Z []];
          call_Read 5%Z 2%Z [mkTick 1%Z []; mkTick 3%Z []]]).
Proof.
  apply (@Read_takes_prefix_in_arrival_order pipe _ fresh 3 0%Z
           (mkTick 7%Z (bytes_of_string "ab;cd")) []
           (bytes_of_string "ab;cd") fresh
           [call_Read 1%Z 0%Z [mkTick 0%Z (bytes_of_string "ab;cd")];
            call_ReadMsg 9%Z [mkTick 4%Z []];
            call_Read 5%Z 2%Z [mkTick 1%Z []; mkTick 3%Z []]]
           [[x61]; [x62; x3b]; []]
           (set_readBuf [x63; x64] fresh)).
  - reflexivity.
  - reflexivity.
  - simpl. lia.
  - reflexivity.
Defined.

(** C4.  Take a call whose completion condition is never satisfied: for
    [ReadMsg], no delimiter among the unconsumed and arriving bytes; for
    [Read], fewer than [n] such bytes.  With a non-zero timeout [T] that the
    clock comes to exceed, the call returns the timeout error, at the first
    iteration whose reading of [time.Since(now)] is greater than [T] (so
    no earlier than [T] after it began), and it has consumed nothing: the
    unconsumed bytes are those from before the call followed by the ones
    that arrived meanwhile.  With a zero timeout the call is still polling
    after any number of iterations, and no call with a zero timeout ever
    returns an error. *)
Theorem polling_timeout_contract
  {N : Type} `{NetConn N} (c : Conn N) (n : Z) (T : Duration)
  (ws : list tick) :
  (~ In (msgDelim c) (unconsumed c ++ concat (map arrived ws)) ->
   (T <> 0%Z -> Exists (fun w => (since w > T)%Z) ws ->
    exists k w c',
      nth_error ws k = Some w /\ (since w > T)%Z /\
      Forall (fun w' => (since w' <= T)%Z) (firstn k ws) /\
      ReadMsg T ws c = Return EmptyString timeout_error c' /\
      unconsumed c' = unconsumed c ++ concat (map arrived (firstn k ws))) /\
   (exists c', ReadMsg 0%Z ws c = Spin c' /\
               unconsumed c' = unconsumed c ++ concat (map arrived ws))) /\
  ((Z.of_nat (length (unconsumed c ++ concat (map arrived ws))) < n)%Z ->
   (T <> 0%Z -> Exists (fun w => (since w > T)%Z) ws ->
    exists k w c',
      nth_error ws k = Some w /\ (since w > T)%Z /\
      Forall (fun w' => (since w' <= T)%Z) (firstn k ws) /\
      Read n T ws c = Return [] timeout_error c' /\
      unconsumed c' = unconsumed c ++ concat (map arrived (firstn k ws))) /\
   (exists c', Read n 0%Z ws c = Spin c' /\
               unconsumed c' = unconsumed c ++ concat (map arrived ws))) /\
  (forall ws0 (c0 : Conn N) msg err c1,
     ReadMsg 0%Z ws0 c0 = Return msg err c1 -> err = nil_error) /\
  (forall m ws0 (c0 : Conn N) out err c1,
     Read m 0%Z ws0 c0 = Return out err c1 -> err = nil_error).
Proof.
  split; [|split; [|split]].
  - intros Hnodelim. split.
    + intros Hnz Hexpires. now apply ReadMsg_times_out.
    + now apply ReadMsg_untimed_waits.
  - intros Hshort. split.
    + intros Hnz Hexpires. now apply Read_times_out.
    + now apply Read_untimed_waits.
  - intros ws0 c0 msg err c1 Hret.
    destruct err as [|text|code]; [reflexivity| |];
      (destruct (ReadMsg_error_is_timeout _ _ _ _ _ _ Hret) as [Hnz _];
       [discriminate|now contradiction Hnz]).
  - intros m ws0 c0 out err c1 Hret.
    destruct err as [|text|code]; [reflexivity| |];
      (destruct (Read_error_is_timeout _ _ _ _ _ _ _ Hret) as [Hnz _];
       [discriminate|now contradiction Hnz]).
Qed.

Lemma polling_timeout_contract_witness :
  let ws := [mkTick 2%Z [x61]; mkTick 6%Z [x62]; mkTick 9%Z []] in
  let ws' := [mkTick 1%Z [x61; x3b]; mkTick 4%Z []] in
  ((exists k w c',
      nth_error ws k = Some w /\ (since w > 5)%Z /\
      Forall (fun w' => (since w' <= 5)%Z) (firstn k ws) /\
      ReadMsg 5%Z ws fresh = Return EmptyString timeout_error c' /\
      unconsumed c' = unconsumed fresh ++ concat (map arrived (firstn k ws))) /\
   (exists c', ReadMsg 0%Z ws fresh = Spin c' /\
               unconsumed c' = unconsumed fresh ++ concat (map arrived ws))) /\
  ((exists k w c',
      nth_error ws' k = Some w /\ (since w > 3)%Z /\
      Forall (fun w' => (since w' <= 3)%Z) (firstn k ws') /\
      Read 5%Z 3%Z ws' fresh = Return [] timeout_error c' /\
      unconsumed c' = unconsumed fresh ++ concat (map arrived (firstn k ws'))) /\
   (exists c', Read 5%Z 0%Z ws' fresh = Spin c' /\
               unconsumed c' = unconsumed fresh ++ concat (map arrived ws'))) /\
  (forall ws0 (c0 : Conn pipe) msg err c1,
     ReadMsg 0%Z ws0 c0 = Return msg err c1 -> err = nil_error) /\
  (forall m ws0 (c0 : Conn pipe) out err c1,
     Read m 0%Z ws0 c0 = Return out err c1 -> err = nil_error).
Proof.
  intros ws ws'.
  destruct (@polling_timeout_contract pipe _ fresh 3%Z 5%Z ws)
    as (Hmsg & _ & Hzero).
  destruct (@polling_timeout_contract pipe _ fresh 5%Z 3%Z ws')
    as (_ & Hread & _).
  split; [|split; [|exact Hzero]].
  - destruct Hmsg as (Htimed & Huntimed).
    + simpl. intros [E|[E|[]]]; discriminate E.
    + split; [|exact Huntimed].
      apply Htimed; [discriminate|].
      apply Exists_cons_tl, Exists_cons_hd. simpl. lia.
  - destruct Hread as (Htimed & Huntimed).
    + simpl. lia.
    + split; [|exact Huntimed].
      apply Htimed; [discriminate|].
      apply Exists_cons_tl, Exists_cons_hd. simpl. lia.
Defined.






(** C7.  The two directions differ.  When the Byte Reader's read on the
    underlying connection reports an error, whichever it is (the peer's
    orderly close included), the Byte Reader forwards nothing, calls [Stop]
    and returns without reading again: the connection is marked stopped
    with one stop signal queued, and the Scheduler's next iteration takes
    the signal, closes the connection and returns.  On every connection,
    [Write] and [WriteMsg] return the count and the error that the
    underlying connection's write reported, whatever they are, and change
    nothing but the underlying connection: the stopped flag and the stop
    queue are as before. *)
Theorem read_errors_stop_write_errors_are_returned
  {N : Type} `{NetConn N}
  (closures : nat -> list tick -> Conn N -> poll N unit) :
  (forall (c : Conn N) (minibuf : list byte) (nc : N) (data : list byte)
          (err : error) (pick : select_case) (ws : list tick),
     reachable c ->
     isStopped c = false ->
     net_Read (netconn c) (length minibuf) = (nc, (data, err)) ->
     err <> nil_error ->
     exists minibuf' c',
       reader_iteration minibuf c = Exit (minibuf', c') /\
       isStopped c' = true /\
       queue (stopChan c') = [true] /\
       readChan c' = readChan c /\
       reader_iteration minibuf' c' = Exit (minibuf', c') /\
       exists c'',
         scheduler_iteration closures pick ws c' = ([], Returned c'') /\
         netconn c'' = fst (net_Close nc)) /\
  (forall (c : Conn N) (bs : list byte) (nc : N) (n : Z) (err : error),
     net_Write (netconn c) bs = (nc, (n, err)) ->
     Write bs c = ((n, err), set_netconn nc c) /\
     isStopped (snd (Write bs c)) = isStopped c /\
     stopChan (snd (Write bs c)) = stopChan c) /\
  (forall (c : Conn N) (msg : string) (nc : N) (n : Z) (err : error),
     net_Write (netconn c) (bytes_of_string msg ++ [msgDelim c])
     = (nc, (n, err)) ->
     WriteMsg msg c = ((n, err), set_netconn nc c) /\
     isStopped (snd (WriteMsg msg c)) = isStopped c /\
     stopChan (snd (WriteMsg msg c)) = stopChan c).
Proof.
  assert (Hwrite : forall (c : Conn N) bs nc n err,
             net_Write (netconn c) bs = (nc, (n, err)) ->
             Write bs c = ((n, err), set_netconn nc c) /\
             isStopped (snd (Write bs c)) = isStopped c /\
             stopChan (snd (Write bs c)) = stopChan c).
  { intros c bs nc n err Hnet. unfold Write. rewrite Hnet. now repeat split. }
  split; [|split; [exact Hwrite|]].
  2: { intros c msg nc n err Hnet. unfold WriteMsg. now apply Hwrite. }
  intros c minibuf nc data err pick ws Hreach Hs Hread Herr.
  destruct (reachable_inv c Hreach) as (_ & _ & Hcap & _ & Hidle & _).
  specialize (Hidle Hs).
  assert (Hstop : Stop (set_netconn nc c)
                  = Done (set_stopChan (mkChan 10 [true])
                            (set_isStopped true (set_netconn nc c)))).
  { unfold Stop, send, len. simpl. rewrite Hs, Hcap, Hidle. reflexivity. }
  exists (copy minibuf data).
  exists (set_stopChan (mkChan 10 [true])
            (set_isStopped true (set_netconn nc c))).
  repeat split.
  - unfold reader_iteration. rewrite Hs, Hread.
    replace (negb (is_nil err)) with true by (now destruct err).
    now rewrite Hstop.
  - destruct (scheduler_iteration_stop_pending closures
                (set_stopChan (mkChan 10 [true])
                   (set_isStopped true (set_netconn nc c)))
                pick ws) as (c'' & Hiter & Hclosed & _).
    + unfold len. simpl. lia.
    + exists c''. split; [exact Hiter|exact Hclosed].
Qed.

Lemma read_errors_stop_write_errors_are_returned_witness :
  (exists minibuf' c',
     reader_iteration [x00] failing = Exit (minibuf', c') /\
     isStopped c' = true /\
     queue (stopChan c') = [true] /\
     readChan c' = readChan failing /\
     reader_iteration minibuf' c' = Exit (minibuf', c') /\
     exists c'',
       scheduler_iteration no_closures case_readChan [] c'
       = ([], Returned c'') /\
       netconn c'' = mkPipe [] [] true true) /\
  (Write [x61] readable_write_broken
   = ((0%Z, err_broken_pipe), readable_write_broken) /\
   isStopped (snd (Write [x61] readable_write_broken)) = false /\
   stopChan (snd (Write [x61] readable_write_broken)) = mkChan 10 []) /\
  (WriteMsg "ping" readable_write_broken
   = ((0%Z, err_broken_pipe), readable_write_broken) /\
   isStopped (snd (WriteMsg "ping" readable_write_broken)) = false /\
   stopChan (snd (WriteMsg "ping" readable_write_broken)) = mkChan 10 []) /\
  (exists c',
     reader_iteration [x00] readable_write_broken = Done ([x61], c')).
Proof.
  destruct (@read_errors_stop_write_errors_are_returned pipe _ no_closures)
    as (Hread & Hwrite & Hwritemsg).
  split; [|split; [|split]].
  - refine (Hread failing [x00] (mkPipe [] [] false true) [] io_EOF
              case_readChan [] _ _ _ _).
    + apply reach_NewConn.
    + reflexivity.
    + reflexivity.
    + discriminate.
  - refine (Hwrite readable_write_broken [x61]
              (mkPipe [x61] [] false true) 0%Z err_broken_pipe _).
    reflexivity.
  - refine (Hwritemsg readable_write_broken "ping"%string
              (mkPipe [x61] [] false true) 0%Z err_broken_pipe _).
    reflexivity.
  - eexists. reflexivity.
Defined.

(** C8.  The first [Stop] on a connection that is not stopped does not
    block, sets the flag and queues exactly one stop signal.  A [Stop] on a
    connection whose flag is set returns at once and changes nothing, so it
    sends no further signal; [Stop] has no error result.  After any [Stop]
    call, [IsStopped] is true. *)
Theorem Stop_is_idempotent
  {N : Type} `{NetConn N} (c : Conn N) :
  reachable c ->
  isStopped c = false ->
  (exists c1,
     Stop c = Done c1 /\
     IsStopped c1 = true /\
     queue (stopChan c1) = [true] /\
     Stop c1 = Done c1 /\
     c1 = set_stopChan (mkChan (cap (stopChan c)) [true])
                       (set_isStopped true c)) /\
  (forall c2 : Conn N, isStopped c2 = true -> Stop c2 = Done c2) /\
  (forall c2 c3 : Conn N,
     Stop c2 = Done c3 \/ Stop c2 = Exit c3 \/ Stop c2 = Blocked c3 ->
     IsStopped c3 = true).
Proof.
  intros Hreach Hs.
  destruct (reachable_inv c Hreach) as (_ & _ & Hcap & _ & Hidle & _).
  specialize (Hidle Hs).
  repeat split.
  - eexists. repeat split.
    + unfold Stop, send, len. simpl. rewrite Hs, Hcap, Hidle. simpl.
      rewrite <- Hcap. reflexivity.
    + reflexivity.
    + reflexivity.
    + reflexivity.
  - intros c2 Hs2. unfold Stop. now rewrite Hs2.
  - intros c2 c3. unfold Stop, IsStopped.
    destruct (isStopped c2) eqn:Hs2.
    + intros [Heq|[Heq|Heq]]; try discriminate. now injection Heq as <-.
    + destruct (send _ true) as [ch|];
        intros [Heq|[Heq|Heq]]; try discriminate; now injection Heq as <-.
Qed.

Lemma Stop_is_idempotent_witness :
  (exists c1,
     Stop fresh = Done c1 /\
     IsStopped c1 = true /\
     queue (stopChan c1) = [true] /\
     Stop c1 = Done c1 /\
     c1 = set_stopChan (mkChan 10 [true]) (set_isStopped true fresh)) /\
  (forall c2 : Conn pipe, isStopped c2 = true -> Stop c2 = Done c2) /\
  (forall c2 c3 : Conn pipe,
     Stop c2 = Done c3 \/ Stop c2 = Exit c3 \/ Stop c2 = Blocked c3 ->
     IsStopped c3 = true).
Proof.
  refine (@Stop_is_idempotent pipe _ fresh _ _).
  - apply reach_NewConn.
  - reflexivity.
Defined.

(** C9.  [SetMessageHandler(nil)] does not store [nil]: it stores a
    function that behaves as the one [NewConn] stores for a [nil] handler,
    namely a [ReadMsg] with timeout zero whose result is dropped.  No
    reachable connection has a [nil] handler, so when the Scheduler receives
    the delimiter the handler it calls is not [nil]. *)
Theorem SetMessageHandler_nil_installs_default
  {N : Type} `{NetConn N}
  (closures : nat -> list tick -> Conn N -> poll N unit)
  (c c1 : Conn N) (nc : N) (delim : byte) (ch : chan byte) (ws : list tick) :
  reachable c1 ->
  len (stopChan c1) = 0 ->
  recv (readChan c1) = Some (msgDelim c1, ch) ->
  func_is_nil (msgHandler (SetMessageHandler nil_func c)) = false /\
  msgHandler (SetMessageHandler nil_func c) <> nil_func /\
  (forall ws0 c0,
     call closures (msgHandler (SetMessageHandler nil_func c)) ws0 c0
     = call closures (msgHandler (NewConn nc nil_func delim)) ws0 c0) /\
  (forall ws0 c0,
     call closures (msgHandler (SetMessageHandler nil_func c)) ws0 c0
     = discard (ReadMsg 0%Z ws0 c0)) /\
  msgHandler c1 <> nil_func /\
  scheduler_iteration closures case_readChan ws c1
  = invoke closures (msgHandler c1) ws
           (set_readBuf (readBuf c1 ++ [msgDelim c1]) (set_readChan ch c1)) /\
  fst (scheduler_iteration closures case_readChan ws c1) = [msgHandler c1] /\
  ~ In nil_func (fst (scheduler_iteration closures case_readChan ws c1)).
Proof.
  intros Hreach Hnostop Hrecv.
  destruct (reachable_inv c1 Hreach) as (_ & _ & _ & _ & _ & _ & Hhandler).
  assert (Hiter : scheduler_iteration closures case_readChan ws c1
                  = invoke closures (msgHandler c1) ws
                      (set_readBuf (readBuf c1 ++ [msgDelim c1])
                                   (set_readChan ch c1))).
  { unfold scheduler_iteration. rewrite Hnostop, Hrecv. simpl.
    now rewrite byte_eqb_refl. }
  repeat split; try reflexivity; try assumption.
  - discriminate.
  - now rewrite Hiter.
  - rewrite Hiter. simpl. intros [Heq|[]]. now apply Hhandler.
Qed.

Lemma SetMessageHandler_nil_installs_default_witness :
  func_is_nil (msgHandler (SetMessageHandler nil_func fresh)) = false /\
  msgHandler (SetMessageHandler nil_func fresh) <> nil_func /\
  (forall ws0 c0,
     call no_closures (msgHandler (SetMessageHandler nil_func fresh)) ws0 c0
     = call no_closures (msgHandler (NewConn idle_pipe nil_func semicolon))
            ws0 c0) /\
  (forall ws0 c0,
     call no_closures (msgHandler (SetMessageHandler nil_func fresh)) ws0 c0
     = discard (ReadMsg 0%Z ws0 c0)) /\
  msgHandler delimiter_pending <> nil_func /\
  scheduler_iteration no_closures case_readChan [] delimiter_pending
  = invoke no_closures lit_NewConn []
           (set_readBuf [semicolon]
              (set_readChan (mkChan 100 []) delimiter_pending)) /\
  fst (scheduler_iteration no_closures case_readChan [] delimiter_pending)
  = [lit_NewConn] /\
  ~ In nil_func
       (fst (scheduler_iteration no_closures case_readChan []
               delimiter_pending)).
Proof.
  refine (@SetMessageHandler_nil_installs_default pipe _ no_closures
            fresh delimiter_pending idle_pipe semicolon (mkChan 100 []) []
            _ _ _).
  - apply (@reach_reader_forward pipe _ [x00]
             (NewConn (mkPipe [semicolon] [] false false) nil_func semicolon)
             [semicolon] delimiter_pending (reach_NewConn _ _ _)).
    reflexivity.
  - reflexivity.
  - reflexivity.
Defined.

(** C10, as amended.  Whatever the Read Buffer and the Pending Byte Queue
    hold, a [Read] of zero bytes that passes its timeout guard (the timeout
    is zero, or the time elapsed at the first check does not exceed it)
    succeeds in its first iteration: it returns an empty slice and a nil
    error, and the unconsumed bytes are the same as before, followed by
    those that arrived before the drain. *)
Theorem Read_zero_bytes
  {N : Type} `{NetConn N} (c : Conn N) (timeout : Duration)
  (w : tick) (ws : list tick) :
  timed_out (since w) timeout = false ->
  Read 0%Z timeout (w :: ws) c
  = Return [] nil_error (updateWholeBuffer (deliver (arrived w) c)) /\
  unconsumed (updateWholeBuffer (deliver (arrived w) c))
  = unconsumed c ++ arrived w.
Proof.
  intros Hto. split.
  - rewrite Read_cons, Hto. cbv zeta.
    replace (Z.of_nat (length (readBuf (updateWholeBuffer (deliver (arrived w) c))))
             >=? 0)%Z with true by (symmetry; apply Z.geb_le; lia).
    reflexivity.
  - apply drained_unconsumed.
Qed.

Lemma Read_zero_bytes_witness :
  Read 0%Z 10%Z [mkTick 4%Z []] fresh = Return [] nil_error fresh /\
  unconsumed fresh = [].
Proof.
  refine (@Read_zero_bytes pipe _ fresh 10%Z (mkTick 4%Z []) [] _).
  reflexivity.
Defined.

(** C10 as stated fails: the timeout guard comes first in the loop, so a
    [Read] of zero bytes whose non-zero timeout is already exceeded at the
    first check (one nanosecond with two elapsed; any negative timeout)
    returns the timeout error instead of succeeding. *)
Lemma Read_zero_bytes_expired_timeout :
  Read 0%Z 1%Z [mkTick 2%Z []] fresh = Return [] timeout_error fresh /\
  Read 0%Z (-1)%Z [mkTick 0%Z []] fresh = Return [] timeout_error fresh /\
  ~ (forall (timeout : Duration) (w : tick) (ws : list tick) (c : Conn pipe),
       exists c', Read 0%Z timeout (w :: ws) c = Return [] nil_error c').
Proof.
  split; [reflexivity|]. split; [reflexivity|].
  intros Hall.
  destruct (Hall 1%Z (mkTick 2%Z []) [] fresh) as [c' Hc']. discriminate Hc'.
Qed.

(** * Further properties of the code *)

(** ** Progress of the polling loops *)

Section Progress.
Context {N : Type} `{NetConn N}.
Implicit Types (c : Conn N) (w : tick) (ws : list tick).


End Progress.

(** X1.  [Read] with a negative count never returns data: an iteration
    that passes the timeout guard finds [len(readBuf) >= n] true and panics
    in [make([]byte, n)]; otherwise the call returns the timeout error. *)
Theorem Read_negative_count_panics
  {N : Type} `{NetConn N} (c : Conn N) (n : Z) (timeout : Duration)
  (w : tick) (ws : list tick) :
  (n < 0)%Z ->
  Read n timeout (w :: ws) c
  = (if timed_out (since w) timeout then Return [] timeout_error c
     else Panic) /\
  (forall ws0 (c0 : Conn N) out c',
     Read n timeout ws0 c0 <> Return out nil_error c').
Proof.
  intros Hn. split.
  - destruct (timed_out (since w) timeout) eqn:Hto.
    + now apply Read_expired.
    + now apply Read_negative.
  - intros ws0. induction ws0 as [|w0 ws0 IH]; intros c0 out c' Hret;
      [discriminate|].
    destruct (timed_out (since w0) timeout) eqn:Hto.
    + rewrite Read_expired in Hret by exact Hto. discriminate.
    + rewrite Read_negative in Hret by assumption. discriminate.
Qed.

Lemma Read_negative_count_panics_witness :
  Read (-1)%Z 0%Z [mkTick 0%Z (bytes_of_string "abc")] fresh = Panic /\
  (forall ws0 (c0 : Conn pipe) out c',
     Read (-1)%Z 0%Z ws0 c0 <> Return out nil_error c').
Proof.
  refine (@Read_negative_count_panics pipe _ fresh (-1)%Z 0%Z
            (mkTick 0%Z (bytes_of_string "abc")) [] _).
  lia.
Defined.

(** X2.  [updateWholeBuffer] appends the pending bytes to the Read Buffer
    in the order they were queued and leaves the queue empty: the sequence
    of unconsumed bytes is the same before and after, and a second call
    changes nothing. *)
Theorem updateWholeBuffer_moves_pending_in_order
  {N : Type} `{NetConn N} (c : Conn N) :
  readBuf (updateWholeBuffer c) = readBuf c ++ queue (readChan c) /\
  len (readChan (updateWholeBuffer c)) = 0 /\
  cap (readChan (updateWholeBuffer c)) = cap (readChan c) /\
  unconsumed (updateWholeBuffer c) = unconsumed c /\
  updateWholeBuffer (updateWholeBuffer c) = updateWholeBuffer c.
Proof.
  unfold updateWholeBuffer, unconsumed, len. simpl.
  rewrite drain_app. repeat split; try reflexivity.
  apply app_nil_r.
Qed.

(** X3.  A [Read] or [ReadMsg] call that returns, with or without an
    error, has touched only the Read Buffer and the Pending Byte Queue:
    the underlying connection, the operation queue, the handler, the
    delimiter, the stopped flag and the stop queue are as before, and the
    Pending Byte Queue is either untouched or empty. *)
Theorem polling_calls_touch_only_the_buffer
  {N : Type} `{NetConn N} (c c' : Conn N) (n : Z) (timeout : Duration)
  (ws : list tick) (msg : string) (out : list byte) (err : error) :
  ReadMsg timeout ws c = Return msg err c' \/
  Read n timeout ws c = Return out err c' ->
  netconn c' = netconn c /\
  opChan c' = opChan c /\
  msgHandler c' = msgHandler c /\
  msgDelim c' = msgDelim c /\
  isStopped c' = isStopped c /\
  stopChan c' = stopChan c /\
  cap (readChan c') = cap (readChan c) /\
  (queue (readChan c') = queue (readChan c) \/ queue (readChan c') = []).
Proof.
  intros [Hret|Hret];
    [apply ReadMsg_polled in Hret|apply Read_polled in Hret];
    unfold polled in Hret; intuition.
Qed.

Lemma polling_calls_touch_only_the_buffer_witness :
  let c' := set_readBuf [x63] (set_readChan (mkChan 100 []) delimiter_pending) in
  netconn c' = netconn delimiter_pending /\
  opChan c' = opChan delimiter_pending /\
  msgHandler c' = msgHandler delimiter_pending /\
  msgDelim c' = msgDelim delimiter_pending /\
  isStopped c' = isStopped delimiter_pending /\
  stopChan c' = stopChan delimiter_pending /\
  cap (readChan c') = cap (readChan delimiter_pending) /\
  (queue (readChan c') = queue (readChan delimiter_pending) \/
   queue (readChan c') = []).
Proof.
  intros c'.
  refine (@polling_calls_touch_only_the_buffer pipe _ delimiter_pending c'
            0%Z 0%Z [mkTick 0%Z [x63]] EmptyString [] nil_error _).
  left. reflexivity.
Defined.

(** ** The iteration at which a polling call returns *)

Section FirstIteration.
Context {N : Type} `{NetConn N}.
Implicit Types (c : Conn N) (w : tick) (ws : list tick).

(** The bytes seen by the first [m + 1] iterations of a call are those
    seen by the first [m] iterations that follow its first drain. *)
Lemma stream_after_first_drain c w ws (m : nat) :
  unconsumed c ++ concat (map arrived (firstn (S m) (w :: ws)))
  = unconsumed (updateWholeBuffer (deliver (arrived w) c))
    ++ concat (map arrived (firstn m ws)).
Proof. rewrite drained_unconsumed. simpl. now rewrite app_assoc. Qed.

Lemma stream_first_iteration c w ws :
  unconsumed c ++ concat (map arrived (firstn 1 (w :: ws)))
  = unconsumed c ++ arrived w.
Proof. simpl. now rewrite app_nil_r. Qed.

(** [Read] returns in the first iteration whose drain leaves [n] bytes in
    the Read Buffer, and in no later one. *)
Lemma Read_at_first_enough n timeout ws c :
  ws <> [] ->
  Forall (fun w => timed_out (since w) timeout = false) ws ->
  n <= length (unconsumed c ++ concat (map arrived ws)) ->
  exists k c',
    k < length ws /\
    n <= length (unconsumed c ++ concat (map arrived (firstn (S k) ws))) /\
    (forall j, j < k ->
       length (unconsumed c ++ concat (map arrived (firstn (S j) ws))) < n) /\
    Read (Z.of_nat n) timeout ws c
    = Return (firstn n (unconsumed c
                        ++ concat (map arrived (firstn (S k) ws))))
             nil_error c' /\
    unconsumed c'
    = skipn n (unconsumed c ++ concat (map arrived (firstn (S k) ws))).
Proof.
  revert c. induction ws as [|w ws IH]; intros c Hne Hto Hlen;
    [contradiction|].
  inversion Hto as [|? ? Hw Hws]; subst.
  destruct (le_lt_dec n (length (unconsumed c ++ arrived w))) as [Hnow|Hlater].
  - exists 0. eexists. rewrite stream_first_iteration.
    split; [simpl; lia|]. split; [exact Hnow|]. split; [intros j Hj; lia|].
    split; [now apply Read_enough|apply unconsumed_after_cut].
  - assert (Hne' : ws <> []).
    { intros ->. simpl in Hlen. rewrite app_nil_r in Hlen. lia. }
    change (concat (map arrived (w :: ws)))
      with (arrived w ++ concat (map arrived ws)) in Hlen.
    rewrite app_assoc, <- (drained_unconsumed (arrived w) c) in Hlen.
    destruct (IH _ Hne' Hws Hlen)
      as (k & c' & Hk & Henough & Hfirst & Hret & Hleft).
    exists (S k), c'. rewrite stream_after_first_drain.
    split; [simpl; lia|]. split; [exact Henough|]. split.
    + intros [|j] Hj.
      * rewrite stream_first_iteration. exact Hlater.
      * rewrite stream_after_first_drain. apply Hfirst. lia.
    + split; [|exact Hleft].
      rewrite Read_short; [exact Hret|exact Hw|lia].
Qed.

(** [ReadMsg] returns in the first iteration whose drain leaves a
    delimiter in the Read Buffer, and in no later one. *)
Lemma ReadMsg_at_first_delimiter timeout ws c pre post :
  ws <> [] ->
  Forall (fun w => timed_out (since w) timeout = false) ws ->
  unconsumed c ++ concat (map arrived ws) = pre ++ msgDelim c :: post ->
  ~ In (msgDelim c) pre ->
  exists k left c',
    k < length ws /\
    unconsumed c ++ concat (map arrived (firstn (S k) ws))
    = pre ++ msgDelim c :: left /\
    (forall j, j < k ->
       ~ In (msgDelim c)
            (unconsumed c ++ concat (map arrived (firstn (S j) ws)))) /\
    ReadMsg timeout ws c = Return (string_of_bytes pre) nil_error c' /\
    unconsumed c' = left.
Proof.
  revert c. induction ws as [|w ws IH]; intros c Hne Hto Hall Hpre;
    [contradiction|].
  inversion Hto as [|? ? Hw Hws]; subst.
  change (concat (map arrived (w :: ws)))
    with (arrived w ++ concat (map arrived ws)) in Hall.
  rewrite app_assoc in Hall.
  destruct (in_dec byte_eq_dec (msgDelim c) (unconsumed c ++ arrived w))
    as [Hin|Hout].
  - destruct (in_split_first _ _ Hin) as (pre' & left & Hsplit & Hpre').
    assert (Hsame : pre' = pre).
    { rewrite Hsplit, <- app_assoc in Hall. simpl in Hall.
      apply first_split_unique in Hall as [Heq _];
        [exact Heq|exact Hpre'|exact Hpre]. }
    subst pre'.
    exists 0, left. eexists. rewrite stream_first_iteration.
    split; [simpl; lia|]. split; [exact Hsplit|].
    split; [intros j Hj; lia|].
    split; [eapply ReadMsg_found; eassumption|apply unconsumed_after_cut].
  - assert (Hne' : ws <> []).
    { intros ->. simpl in Hall. rewrite app_nil_r in Hall.
      apply Hout. rewrite Hall. apply in_or_app. right. now left. }
    rewrite <- (drained_unconsumed (arrived w) c) in Hall.
    destruct (IH (updateWholeBuffer (deliver (arrived w) c)) Hne' Hws Hall Hpre)
      as (k & left & c' & Hk & Hsplit & Hfirst & Hret & Hleft).
    exists (S k), left, c'. rewrite stream_after_first_drain.
    split; [simpl; lia|]. split; [exact Hsplit|]. split.
    + intros [|j] Hj.
      * rewrite stream_first_iteration. exact Hout.
      * rewrite stream_after_first_drain. apply Hfirst. lia.
    + split; [|exact Hleft].
      rewrite ReadMsg_missing; [exact Hret|exact Hw|exact Hout].
Qed.

End FirstIteration.

(** X4.  [Read(n)] whose observations show no expired timeout returns as
    soon as [n] bytes have arrived, however they are split over the
    iterations.  It returns in iteration [k], the first one whose drain
    leaves at least [n] bytes in the Read Buffer: every earlier iteration
    found fewer.  It returns the first [n] bytes of the stream made of the
    bytes unconsumed before the call followed by the arriving ones, and it
    leaves unconsumed the rest of what had arrived by iteration [k], not
    what arrives later. *)
Theorem Read_returns_once_enough_bytes_arrived
  {N : Type} `{NetConn N} (c : Conn N) (n : nat) (timeout : Duration)
  (ws : list tick) :
  ws <> [] ->
  Forall (fun w => timed_out (since w) timeout = false) ws ->
  n <= length (unconsumed c ++ concat (map arrived ws)) ->
  exists k c',
    k < length ws /\
    n <= length (unconsumed c ++ concat (map arrived (firstn (S k) ws))) /\
    (forall j, j < k ->
       length (unconsumed c ++ concat (map arrived (firstn (S j) ws))) < n) /\
    Read (Z.of_nat n) timeout ws c
    = Return (firstn n (unconsumed c ++ concat (map arrived ws))) nil_error c' /\
    unconsumed c'
    = skipn n (unconsumed c ++ concat (map arrived (firstn (S k) ws))).
Proof.
  intros Hne Hto Hlen.
  destruct (Read_at_first_enough n timeout ws c Hne Hto Hlen)
    as (k & c' & Hk & Henough & Hfirst & Hret & Hleft).
  exists k, c'. repeat split; try assumption.
  assert (Hwhole : unconsumed c ++ concat (map arrived ws)
                   = (unconsumed c ++ concat (map arrived (firstn (S k) ws)))
                     ++ concat (map arrived (skipn (S k) ws))).
  { now rewrite <- app_assoc, <- concat_app, <- map_app, firstn_skipn. }
  rewrite Hwhole, firstn_app.
  replace (n - length (unconsumed c
                       ++ concat (map arrived (firstn (S k) ws))))
    with 0 by lia.
  rewrite firstn_O, app_nil_r. exact Hret.
Qed.

Lemma Read_returns_once_enough_bytes_arrived_witness :
  let ws := [mkTick 1%Z [x61]; mkTick 2%Z [x62; x63; x64];
             mkTick 3%Z [x65]] in
  exists k c',
    k < 3 /\
    3 <= length (unconsumed fresh ++ concat (map arrived (firstn (S k) ws))) /\
    (forall j, j < k ->
       length (unconsumed fresh ++ concat (map arrived (firstn (S j) ws))) < 3) /\
    Read 3%Z 9%Z ws fresh = Return [x61; x62; x63] nil_error c' /\
    unconsumed c'
    = skipn 3 (unconsumed fresh ++ concat (map arrived (firstn (S k) ws))).
Proof.
  intros ws.
  refine (@Read_returns_once_enough_bytes_arrived pipe _ fresh 3 9%Z ws
            _ _ _).
  - discriminate.
  - repeat constructor.
  - simpl. lia.
Defined.

(** X5.  [ReadMsg] whose observations show no expired timeout returns as
    soon as a delimiter has arrived.  It returns in iteration [k], the
    first one whose drain leaves a delimiter in the Read Buffer: every
    earlier iteration found none.  Its message is the bytes before the
    first delimiter of the stream made of the bytes unconsumed before the
    call followed by the arriving ones, and it leaves unconsumed what had
    arrived behind that delimiter by iteration [k], not what arrives
    later. *)
Theorem ReadMsg_returns_once_a_delimiter_arrived
  {N : Type} `{NetConn N} (c : Conn N) (timeout : Duration)
  (ws : list tick) (pre post : list byte) :
  ws <> [] ->
  Forall (fun w => timed_out (since w) timeout = false) ws ->
  unconsumed c ++ concat (map arrived ws) = pre ++ msgDelim c :: post ->
  ~ In (msgDelim c) pre ->
  exists k left c',
    k < length ws /\
    unconsumed c ++ concat (map arrived (firstn (S k) ws))
    = pre ++ msgDelim c :: left /\
    (forall j, j < k ->
       ~ In (msgDelim c)
            (unconsumed c ++ concat (map arrived (firstn (S j) ws)))) /\
    ReadMsg timeout ws c = Return (string_of_bytes pre) nil_error c' /\
    unconsumed c' = left.
Proof.
  intros Hne Hto Hall Hpre.
  now apply (ReadMsg_at_first_delimiter timeout ws c pre post).
Qed.

Lemma ReadMsg_returns_once_a_delimiter_arrived_witness :
  let ws := [mkTick 1%Z [x61]; mkTick 2%Z [x62; x3b; x63];
             mkTick 3%Z [x3b]] in
  exists k left c',
    k < 3 /\
    unconsumed fresh ++ concat (map arrived (firstn (S k) ws))
    = [x61; x62] ++ x3b :: left /\
    (forall j, j < k ->
       ~ In x3b (unconsumed fresh ++ concat (map arrived (firstn (S j) ws)))) /\
    ReadMsg 0%Z ws fresh = Return "ab"%string nil_error c' /\
    unconsumed c' = left.
Proof.
  intros ws.
  refine (@ReadMsg_returns_once_a_delimiter_arrived pipe _ fresh 0%Z ws
            [x61; x62] [x63; x3b] _ _ _ _).
  - discriminate.
  - repeat constructor.
  - reflexivity.
  - simpl. intros [E|[E|[]]]; discriminate E.
Defined.

(** ** What no step changes *)

Section Steps.
Context {N : Type} `{NetConn N}.
Implicit Types (c : Conn N).

Lemma kept_polled c c' : polled c c' -> kept c c'.
Proof.
  unfold polled, kept.
  intros (_ & -> & _ & -> & _ & -> & -> & ->). intuition (try discriminate; try lia).
Qed.

Lemma Stop_kept c c' : Stop c = Done c' -> kept c c'.
Proof.
  unfold Stop, kept. destruct (isStopped c) eqn:Hs.
  - intros Heq. injection Heq as <-. rewrite Hs. intuition (try discriminate; try lia).
  - destruct (send _ true) as [ch|] eqn:Hsend; [|discriminate].
    intros Heq. injection Heq as <-.
    apply send_Some in Hsend as (_ & Hcap & _). simpl in *.
    rewrite Hcap. intuition (try discriminate; try lia).
Qed.

Lemma transition_kept c c' : transition c c' -> kept c c'.
Proof.
  intros Hstep.
  destruct Hstep as
    [f c
    |o c c' Hq
    |c c' Hstop
    |timeout ws c msg err c' Hret
    |n timeout ws c out err c' Hret
    |bs c
    |minibuf c minibuf' c' Hstep
    |minibuf c minibuf' c' Hstep
    |b ch c Hrecv
    |o ch c Hrecv
    |c c' Hstep].
  - unfold kept, SetMessageHandler. simpl. intuition (try discriminate; try lia).
  - unfold QueueOperation in Hq.
    destruct (send (opChan c) o) as [ch|] eqn:Hsend; [|discriminate].
    injection Hq as <-. apply send_Some in Hsend as (Hlt & Hcap & Hqueue).
    unfold kept, len in *. simpl. rewrite Hcap, Hqueue, length_app. simpl.
    repeat split; try reflexivity; try tauto. right. lia.
  - now apply Stop_kept.
  - eapply kept_polled, ReadMsg_polled, Hret.
  - eapply kept_polled, Read_polled, Hret.
  - unfold Write. destruct (net_Write (netconn c) bs) as [nc r].
    unfold kept. simpl. intuition (try discriminate; try lia).
  - unfold reader_iteration in Hstep.
    destruct (isStopped c) eqn:Hs; [discriminate|].
    destruct (net_Read (netconn c) (length minibuf)) as [nc [data err]].
    destruct (is_nil err); simpl in Hstep.
    + destruct (send _ _) as [ch|] eqn:Hsend in Hstep; [|discriminate].
      injection Hstep as _ <-.
      apply send_Some in Hsend as (_ & Hcap & _). simpl in Hcap.
      unfold kept. simpl. rewrite Hcap, Hs. intuition (try discriminate; try lia).
    + destruct (Stop (set_netconn nc c)); discriminate.
  - unfold reader_iteration in Hstep.
    destruct (isStopped c) eqn:Hs.
    + injection Hstep as _ <-. unfold kept. intuition (try discriminate; try lia).
    + destruct (net_Read (netconn c) (length minibuf)) as [nc [data err]].
      destruct (is_nil err); simpl in Hstep.
      * destruct (send _ _) in Hstep; discriminate.
      * destruct (Stop (set_netconn nc c)) as [c1|c1|c1] eqn:Hstop;
          try discriminate; injection Hstep as _ <-.
        -- apply Stop_kept in Hstop. unfold kept in *. simpl in Hstop.
           exact Hstop.
        -- unfold Stop in Hstop. simpl in Hstop. rewrite Hs in Hstop.
           destruct (send _ true) in Hstop; discriminate.
  - apply recv_Some in Hrecv as (Hcap & _).
    unfold kept. simpl. rewrite Hcap. intuition (try discriminate; try lia).
  - apply recv_Some in Hrecv as (Hcap & Hqueue).
    unfold kept, len. simpl. rewrite Hcap, Hqueue. simpl.
    repeat split; try reflexivity; try tauto. left. lia.
  - unfold stop_and_close in Hstep.
    destruct (recv (stopChan c)) as [[s ch]|] eqn:Hrecv; [|discriminate].
    destruct (net_Close (netconn c)) as [nc e].
    injection Hstep as <-. apply recv_Some in Hrecv as (Hcap & _).
    unfold kept. simpl. rewrite Hcap. intuition (try discriminate; try lia).
Qed.

Lemma transition_reachable c c' :
  reachable c -> transition c c' -> reachable c'.
Proof.
  intros Hreach Hstep. destruct Hstep.
  - now apply reach_SetMessageHandler.
  - eapply reach_QueueOperation; eassumption.
  - eapply reach_Stop; eassumption.
  - eapply reach_ReadMsg; eassumption.
  - eapply reach_Read; eassumption.
  - now apply reach_Write.
  - eapply reach_reader_forward; eassumption.
  - eapply reach_reader_exit; eassumption.
  - eapply reach_scheduler_byte; eassumption.
  - eapply reach_scheduler_op; eassumption.
  - eapply reach_scheduler_stop; eassumption.
Qed.

(** Induction over the reachable states, one step at a time. *)
Lemma reachable_invariant (P : Conn N -> Prop) :
  (forall nc handler delim, P (NewConn nc handler delim)) ->
  (forall c c', reachable c -> P c -> transition c c' -> P c') ->
  forall c, reachable c -> P c.
Proof.
  intros Hinit Hstep c Hreach.
  induction Hreach as
    [nc handler delim
    |f c Hr IH
    |o c c' Hr IH Hq
    |c c' Hr IH Hstop
    |timeout ws c msg err c' Hr IH Hret
    |n timeout ws c out err c' Hr IH Hret
    |bs c Hr IH
    |minibuf c minibuf' c' Hr IH Hiter
    |minibuf c minibuf' c' Hr IH Hiter
    |b ch c Hr IH Hrecv
    |o ch c Hr IH Hrecv
    |c c' Hr IH Hiter].
  - apply Hinit.
  - apply (Hstep c _ Hr IH). apply tr_SetMessageHandler.
  - apply (Hstep c _ Hr IH). eapply tr_QueueOperation; eassumption.
  - apply (Hstep c _ Hr IH). eapply tr_Stop; eassumption.
  - apply (Hstep c _ Hr IH). eapply tr_ReadMsg; eassumption.
  - apply (Hstep c _ Hr IH). eapply tr_Read; eassumption.
  - apply (Hstep c _ Hr IH). apply tr_Write.
  - apply (Hstep c _ Hr IH). eapply tr_reader_forward; eassumption.
  - apply (Hstep c _ Hr IH). eapply tr_reader_exit; eassumption.
  - apply (Hstep c _ Hr IH). eapply tr_scheduler_byte; eassumption.
  - apply (Hstep c _ Hr IH). eapply tr_scheduler_op; eassumption.
  - apply (Hstep c _ Hr IH). eapply tr_scheduler_stop; eassumption.
Qed.

(** The operation queue never holds more operations than its capacity. *)
Lemma reachable_opChan_bound c :
  reachable c -> len (opChan c) <= cap (opChan c).
Proof.
  revert c.
  apply (reachable_invariant (fun c => len (opChan c) <= cap (opChan c))).
  - intros nc handler delim. unfold NewConn, len. simpl. lia.
  - intros c0 c' _ IH Hstep.
    destruct (transition_kept _ _ Hstep) as (_ & _ & Hcap & _ & _ & Hlen).
    rewrite Hcap. lia.
Qed.

End Steps.

(** X6.  Through any number of method calls and goroutine steps the
    delimiter and the capacities of the three channels stay the same, and a
    connection whose stopped flag is set keeps it set: nothing in the code
    clears the flag. *)
Theorem steps_keep_delimiter_and_stopped_flag
  {N : Type} `{NetConn N} (c c' : Conn N) :
  transitions c c' ->
  msgDelim c' = msgDelim c /\
  cap (readChan c') = cap (readChan c) /\
  cap (opChan c') = cap (opChan c) /\
  cap (stopChan c') = cap (stopChan c) /\
  (isStopped c = true -> isStopped c' = true) /\
  (reachable c -> reachable c').
Proof.
  induction 1 as [c c' Hstep|c|c c1 c' _ IH1 _ IH2].
  - destruct (transition_kept _ _ Hstep) as (Hd & Hr & Ho & Hs & Hflag & _).
    repeat split; try assumption.
    intros Hreach. eapply transition_reachable; eassumption.
  - repeat split; auto.
  - destruct IH1 as (Hd1 & Hr1 & Ho1 & Hs1 & Hflag1 & Hreach1).
    destruct IH2 as (Hd2 & Hr2 & Ho2 & Hs2 & Hflag2 & Hreach2).
    repeat split; try congruence; auto.
Qed.

Lemma steps_keep_delimiter_and_stopped_flag_witness :
  let c' := SetMessageHandler (closure 3) (snd (Write [x61] stopping_with_work)) in
  msgDelim c' = semicolon /\
  cap (readChan c') = 100 /\
  cap (opChan c') = 10 /\
  cap (stopChan c') = 10 /\
  (isStopped stopping_with_work = true -> isStopped c' = true) /\
  (reachable stopping_with_work -> reachable c').
Proof.
  intros c'.
  refine (@steps_keep_delimiter_and_stopped_flag pipe _ stopping_with_work c' _).
  apply rt_trans with (y := snd (Write [x61] stopping_with_work)).
  - apply rt_step. apply tr_Write.
  - apply rt_step. apply tr_SetMessageHandler.
Defined.

(** X7.  [QueueOperation] appends the operation at the end of a queue of
    capacity 10.  In a reachable state the queue holds at most 10
    operations; the call goes through while fewer than 10 are queued,
    changing nothing but the queue, and cannot proceed when 10 are. *)
Theorem QueueOperation_appends_to_a_bounded_queue
  {N : Type} `{NetConn N} (c : Conn N) (o : func) :
  reachable c ->
  len (opChan c) <= 10 /\
  (len (opChan c) < 10 ->
   QueueOperation o c
   = Some (set_opChan (mkChan 10 (queue (opChan c) ++ [o])) c)) /\
  (len (opChan c) = 10 -> QueueOperation o c = None).
Proof.
  intros Hreach.
  pose proof (reachable_opChan_bound c Hreach) as Hlen.
  destruct (reachable_inv c Hreach) as (_ & Hcap & _).
  rewrite Hcap in Hlen. split; [exact Hlen|].
  unfold QueueOperation, send. rewrite Hcap. split; intros Hn.
  - replace (Nat.ltb (len (opChan c)) 10) with true
      by (symmetry; now apply Nat.ltb_lt).
    reflexivity.
  - replace (Nat.ltb (len (opChan c)) 10) with false
      by (symmetry; apply Nat.ltb_ge; lia).
    reflexivity.
Qed.

Lemma QueueOperation_appends_to_a_bounded_queue_witness :
  len (opChan delimiter_pending) <= 10 /\
  (len (opChan delimiter_pending) < 10 ->
   QueueOperation (closure 7) delimiter_pending
   = Some (set_opChan (mkChan 10 [closure 7]) delimiter_pending)) /\
  (len (opChan delimiter_pending) = 10 ->
   QueueOperation (closure 7) delimiter_pending = None).
Proof.
  refine (@QueueOperation_appends_to_a_bounded_queue pipe _
            delimiter_pending (closure 7) _).
  apply (@reach_reader_forward pipe _ [x00]
           (NewConn (mkPipe [semicolon] [] false false) nil_func semicolon)
           [semicolon] delimiter_pending (reach_NewConn _ _ _)).
  reflexivity.
Defined.

(** X8.  The Scheduler runs queued operations in the order in which they
    were queued: with no stop signal pending, and operations that return
    and leave the operation and stop queues alone, as many iterations
    taking the operation case as there are queued operations call exactly
    those operations, first queued first, and empty the queue. *)
Theorem operations_run_in_submission_order
  {N : Type} `{NetConn N}
  (closures : nat -> list tick -> Conn N -> poll N unit)
  (os : list func) (ws : list tick) (c : Conn N) :
  len (stopChan c) = 0 ->
  queue (opChan c) = os ->
  (forall o (c0 : Conn N), In o os ->
     exists v err c1,
       call closures o ws c0 = Return v err c1 /\
       opChan c1 = opChan c0 /\ stopChan c1 = stopChan c0) ->
  exists c',
    scheduler_loop closures (map (fun _ => (case_opChan, ws)) os) c
    = (os, Continue c') /\
    queue (opChan c') = [] /\
    len (stopChan c') = 0.
Proof.
  revert c. induction os as [|o os IH]; intros c Hnostop Hqueue Hcalls.
  - exists c. simpl. now repeat split.
  - destruct (Hcalls o (set_opChan (mkChan (cap (opChan c)) os) c))
      as (v & err & c1 & Hcall & Hops & Hstops); [now left|].
    destruct (IH c1) as (c' & Hloop & Hempty & Hnostop').
    + now rewrite Hstops.
    + now rewrite Hops.
    + intros o' c0 Hin. apply Hcalls. now right.
    + exists c'. split; [|now split].
      simpl. unfold scheduler_iteration. rewrite Hnostop. simpl.
      unfold recv. rewrite Hqueue. unfold invoke. rewrite Hcall.
      now rewrite Hloop.
Qed.

Lemma operations_run_in_submission_order_witness :
  exists c',
    scheduler_loop no_closures
      [(case_opChan, []); (case_opChan, [])]
      (set_opChan (mkChan 10 [closure 1; closure 2]) fresh)
    = ([closure 1; closure 2], Continue c') /\
    queue (opChan c') = [] /\
    len (stopChan c') = 0.
Proof.
  refine (@operations_run_in_submission_order pipe _ no_closures
            [closure 1; closure 2] []
            (set_opChan (mkChan 10 [closure 1; closure 2]) fresh) _ _ _).
  - reflexivity.
  - reflexivity.
  - intros o c0 [<-|[<-|[]]]; exists tt, nil_error, c0; now repeat split.
Defined.

(** X9.  [QueueOperation] accepts a [nil] operation ([SetMessageHandler]
    replaces [nil], [QueueOperation] does not), and the Scheduler panics
    when it comes to run it: with no stop signal pending, the iteration that
    receives a [nil] operation calls it and crashes. *)
Theorem nil_operation_crashes_the_scheduler
  {N : Type} `{NetConn N}
  (closures : nat -> list tick -> Conn N -> poll N unit)
  (c : Conn N) (ws : list tick) :
  reachable c ->
  len (stopChan c) = 0 ->
  len (opChan c) = 0 ->
  exists c',
    QueueOperation nil_func c = Some c' /\
    queue (opChan c') = [nil_func] /\
    scheduler_iteration closures case_opChan ws c' = ([nil_func], Crashed).
Proof.
  intros Hreach Hnostop Hnoops.
  destruct (reachable_inv c Hreach) as (_ & Hcap & _).
  assert (Hq : queue (opChan c) = [])
    by (unfold len in Hnoops; now apply length_zero_iff_nil).
  exists (set_opChan (mkChan 10 [nil_func]) c). repeat split.
  - unfold QueueOperation, send. rewrite Hnoops, Hcap, Hq. reflexivity.
  - unfold scheduler_iteration. simpl. rewrite Hnostop. reflexivity.
Qed.

Lemma nil_operation_crashes_the_scheduler_witness :
  exists c',
    QueueOperation nil_func fresh = Some c' /\
    queue (opChan c') = [nil_func] /\
    scheduler_iteration no_closures case_opChan [] c' = ([nil_func], Crashed).
Proof.
  refine (@nil_operation_crashes_the_scheduler pipe _ no_closures fresh []
            _ _ _).
  - apply reach_NewConn.
  - reflexivity.
  - reflexivity.
Defined.

(** X10.  With no stop signal pending, the Scheduler iteration that
    receives a byte appends it to the Read Buffer, which leaves the sequence
    of unconsumed bytes as it was.  It calls a function only when the byte
    is the delimiter, and then it calls the handler installed last, once,
    with the delimiter already in the Read Buffer; for any other byte it
    goes round the loop again. *)
Theorem scheduler_moves_bytes_and_calls_handler_on_delimiter
  {N : Type} `{NetConn N}
  (closures : nat -> list tick -> Conn N -> poll N unit)
  (c : Conn N) (b : byte) (ch : chan byte) (f : func) (ws : list tick) :
  len (stopChan c) = 0 ->
  recv (readChan c) = Some (b, ch) ->
  unconsumed (set_readBuf (readBuf c ++ [b]) (set_readChan ch c))
  = unconsumed c /\
  (b <> msgDelim c ->
   scheduler_iteration closures case_readChan ws c
   = ([], Continue (set_readBuf (readBuf c ++ [b]) (set_readChan ch c)))) /\
  (b = msgDelim c ->
   scheduler_iteration closures case_readChan ws c
   = invoke closures (msgHandler c) ws
            (set_readBuf (readBuf c ++ [b]) (set_readChan ch c)) /\
   (func_is_nil f = false ->
    fst (scheduler_iteration closures case_readChan ws
           (SetMessageHandler f c)) = [f])).
Proof.
  intros Hnostop Hrecv. split; [|split].
  - apply recv_Some in Hrecv as (_ & Hq).
    unfold unconsumed. simpl. rewrite Hq, <- app_assoc. reflexivity.
  - intros Hne. unfold scheduler_iteration. rewrite Hnostop, Hrecv. simpl.
    now rewrite byte_eqb_neq.
  - intros ->. split.
    + unfold scheduler_iteration. rewrite Hnostop, Hrecv. simpl.
      now rewrite byte_eqb_refl.
    + intros Hf. unfold scheduler_iteration, SetMessageHandler. simpl.
      rewrite Hnostop, Hrecv, Hf. simpl. now rewrite byte_eqb_refl.
Qed.

Lemma scheduler_moves_bytes_and_calls_handler_on_delimiter_witness :
  let c1 := set_readBuf [semicolon]
              (set_readChan (mkChan 100 []) delimiter_pending) in
  unconsumed c1 = unconsumed delimiter_pending /\
  (semicolon <> msgDelim delimiter_pending ->
   scheduler_iteration no_closures case_readChan [] delimiter_pending
   = ([], Continue c1)) /\
  (semicolon = msgDelim delimiter_pending ->
   scheduler_iteration no_closures case_readChan [] delimiter_pending
   = invoke no_closures lit_NewConn [] c1 /\
   (func_is_nil (closure 5) = false ->
    fst (scheduler_iteration no_closures case_readChan []
           (SetMessageHandler (closure 5) delimiter_pending))
    = [closure 5])).
Proof.
  intros c1.
  refine (@scheduler_moves_bytes_and_calls_handler_on_delimiter pipe _
            no_closures delimiter_pending semicolon (mkChan 100 [])
            (closure 5) [] _ _).
  - reflexivity.
  - reflexivity.
Defined.

(** ** The default handler and the Byte Reader *)

Section DefaultHandler.
Context {N : Type} `{NetConn N}.
Variable closures : nat -> list tick -> Conn N -> poll N unit.

(** The iteration that receives the delimiter ending the message held in
    the Read Buffer, when the handler is one of the two function literals
    of [Conn.go]. *)
Lemma default_handler_iteration (c : Conn N) (ch : chan byte)
      (w : tick) (ws : list tick) :
  len (stopChan c) = 0 ->
  recv (readChan c) = Some (msgDelim c, ch) ->
  ~ In (msgDelim c) (readBuf c) ->
  msgHandler c = lit_NewConn \/ msgHandler c = lit_SetMessageHandler ->
  scheduler_iteration closures case_readChan (w :: ws) c
  = ([msgHandler c],
     Continue (set_readBuf (queue ch ++ arrived w)
                 (updateWholeBuffer
                    (deliver (arrived w)
                       (set_readBuf (readBuf c ++ [msgDelim c])
                                    (set_readChan ch c)))))).
Proof.
  intros Hnostop Hrecv Hclean Hdefault.
  unfold scheduler_iteration. rewrite Hnostop, Hrecv. simpl Nat.ltb. cbv iota.
  set (c1 := set_readBuf (readBuf c ++ [msgDelim c]) (set_readChan ch c)).
  change (msgDelim c1) with (msgDelim c). rewrite byte_eqb_refl.
  change (msgHandler c1) with (msgHandler c).
  assert (Hread : ReadMsg 0%Z (w :: ws) c1
                  = Return (string_of_bytes (readBuf c)) nil_error
                      (set_readBuf (queue ch ++ arrived w)
                         (updateWholeBuffer (deliver (arrived w) c1)))).
  { apply ReadMsg_found.
    - apply timed_out_zero.
    - unfold unconsumed, c1. simpl. now rewrite <- !app_assoc.
    - exact Hclean. }
  unfold invoke, call.
  destruct Hdefault as [-> | ->]; rewrite Hread; reflexivity.
Qed.

End DefaultHandler.

(** X11.  The default handler drops one message.  With no stop signal
    pending and a Read Buffer holding a message without its delimiter, the
    iteration that receives the delimiter calls the default handler, whose
    [ReadMsg(0)] returns at once and removes the message and its delimiter:
    what is left unconsumed is what was pending behind the delimiter and
    what arrived meanwhile, all of it now in the Read Buffer. *)
Theorem default_handler_discards_the_message
  {N : Type} `{NetConn N}
  (closures : nat -> list tick -> Conn N -> poll N unit)
  (c : Conn N) (ch : chan byte) (w : tick) (ws : list tick) :
  len (stopChan c) = 0 ->
  recv (readChan c) = Some (msgDelim c, ch) ->
  ~ In (msgDelim c) (readBuf c) ->
  msgHandler c = lit_NewConn \/ msgHandler c = lit_SetMessageHandler ->
  exists c',
    scheduler_iteration closures case_readChan (w :: ws) c
    = ([msgHandler c], Continue c') /\
    readBuf c' = queue ch ++ arrived w /\
    queue (readChan c') = [] /\
    unconsumed c ++ arrived w
    = (readBuf c ++ [msgDelim c]) ++ unconsumed c'.
Proof.
  intros Hnostop Hrecv Hclean Hdefault.
  eexists. split.
  - apply (default_handler_iteration closures c ch w ws); assumption.
  - repeat split.
    rewrite unconsumed_after_cut.
    apply recv_Some in Hrecv as (_ & Hq).
    unfold unconsumed. rewrite Hq. now rewrite <- !app_assoc.
Qed.

Lemma default_handler_discards_the_message_witness :
  exists c',
    scheduler_iteration no_closures case_readChan [mkTick 0%Z [x7a]]
      (set_readBuf [x61; x62] delimiter_pending)
    = ([lit_NewConn], Continue c') /\
    readBuf c' = [x7a] /\
    queue (readChan c') = [] /\
    [x61; x62; x3b; x7a] = ([x61; x62] ++ [x3b]) ++ unconsumed c'.
Proof.
  refine (@default_handler_discards_the_message pipe _ no_closures
            (set_readBuf [x61; x62] delimiter_pending) (mkChan 100 [])
            (mkTick 0%Z [x7a]) [] _ _ _ _).
  - reflexivity.
  - reflexivity.
  - simpl. intros [E|[E|[]]]; discriminate E.
  - left. reflexivity.
Defined.

(** X12.  A delimiter that a polling call drains into the Read Buffer does
    not go through the Scheduler.  When the default handler runs while a
    further delimiter is pending or arriving, that delimiter ends up in the
    Read Buffer with the Pending Byte Queue empty, so a complete message is
    buffered and yet the byte case of the Scheduler's next iteration is not
    ready: no handler is called for it until another byte is received. *)
Theorem drained_delimiter_calls_no_handler
  {N : Type} `{NetConn N}
  (closures : nat -> list tick -> Conn N -> poll N unit)
  (c : Conn N) (ch : chan byte) (w : tick) (ws ws' : list tick) :
  len (stopChan c) = 0 ->
  recv (readChan c) = Some (msgDelim c, ch) ->
  ~ In (msgDelim c) (readBuf c) ->
  msgHandler c = lit_NewConn \/ msgHandler c = lit_SetMessageHandler ->
  In (msgDelim c) (queue ch ++ arrived w) ->
  exists c',
    scheduler_iteration closures case_readChan (w :: ws) c
    = ([msgHandler c], Continue c') /\
    In (msgDelim c') (readBuf c') /\
    len (readChan c') = 0 /\
    scheduler_iteration closures case_readChan ws' c' = ([], Waiting c').
Proof.
  intros Hnostop Hrecv Hclean Hdefault Hmore.
  eexists. split.
  - apply (default_handler_iteration closures c ch w ws); assumption.
  - repeat split.
    + exact Hmore.
    + unfold scheduler_iteration. simpl. rewrite Hnostop. reflexivity.
Qed.

Lemma drained_delimiter_calls_no_handler_witness :
  exists c',
    scheduler_iteration no_closures case_readChan
      [mkTick 0%Z [x63; x3b]] (set_readBuf [x61; x62] delimiter_pending)
    = ([lit_NewConn], Continue c') /\
    In (msgDelim c') (readBuf c') /\
    len (readChan c') = 0 /\
    scheduler_iteration no_closures case_readChan [] c' = ([], Waiting c').
Proof.
  refine (@drained_delimiter_calls_no_handler pipe _ no_closures
            (set_readBuf [x61; x62] delimiter_pending) (mkChan 100 [])
            (mkTick 0%Z [x63; x3b]) [] [] _ _ _ _ _).
  - reflexivity.
  - reflexivity.
  - simpl. intros [E|[E|[]]]; discriminate E.
  - left. reflexivity.
  - simpl. right. left. reflexivity.
Defined.

(** X13.  The Byte Reader ignores the count returned by [Read] and forwards
    the first byte of its one-byte buffer whenever [Read] reports no error:
    the byte just read when [Read] stored one, and otherwise the byte left
    there by the previous read, which is thus forwarded again. *)
Theorem reader_forwards_the_byte_in_its_buffer
  {N : Type} `{NetConn N} (c : Conn N) (b0 : byte) (nc : N)
  (data : list byte) :
  isStopped c = false ->
  net_Read (netconn c) 1 = (nc, (data, nil_error)) ->
  len (readChan c) < cap (readChan c) ->
  reader_iteration [b0] c
  = Done ([hd b0 data],
          set_readChan
            (mkChan (cap (readChan c)) (queue (readChan c) ++ [hd b0 data]))
            (set_netconn nc c)) /\
  unconsumed (set_readChan
                (mkChan (cap (readChan c)) (queue (readChan c) ++ [hd b0 data]))
                (set_netconn nc c))
  = unconsumed c ++ [hd b0 data].
Proof.
  intros Hs Hread Hroom. split.
  - unfold reader_iteration. rewrite Hs. simpl length. rewrite Hread.
    simpl is_nil. simpl negb. cbv iota.
    assert (Hcopy : copy [b0] data = [hd b0 data])
      by (destruct data as [|d [|d' data]]; reflexivity).
    rewrite Hcopy. unfold send. simpl.
    replace (Nat.ltb (len (readChan c)) (cap (readChan c))) with true
      by (symmetry; now apply Nat.ltb_lt).
    reflexivity.
  - unfold unconsumed. simpl. now rewrite app_assoc.
Qed.

Lemma reader_forwards_the_byte_in_its_buffer_witness :
  let c := NewConn (mkQuiet 0) nil_func semicolon in
  reader_iteration [x61] c
  = Done ([x61], set_readChan (mkChan 100 [x61]) (set_netconn (mkQuiet 1) c)) /\
  unconsumed (set_readChan (mkChan 100 [x61]) (set_netconn (mkQuiet 1) c))
  = unconsumed c ++ [x61].
Proof.
  intros c.
  refine (@reader_forwards_the_byte_in_its_buffer quiet _ c x61
            (mkQuiet 1) [] _ _ _).
  - reflexivity.
  - reflexivity.
  - unfold len. simpl. lia.
Defined.

(** ** Messages one after the other *)

Section Messages.
Context {N : Type} `{NetConn N}.
Implicit Types (c : Conn N).

Lemma ReadMsg_repeat_cons timeout (ws : list tick) (wss : list (list tick)) c :
  ReadMsg_repeat timeout (ws :: wss) c
  = match ReadMsg timeout ws c with
    | Return msg nil_error c' =>
        match ReadMsg_repeat timeout wss c' with
        | Some (msgs, c'') => Some (msg :: msgs, c'')
        | None => None
        end
    | _ => None
    end.
Proof. reflexivity. Qed.


End Messages.

(** X14.  Messages framed one after the other are read back one per call,
    in order.  When the unconsumed bytes start with the frames of [msgs]
    (each message followed by the delimiter, none containing it), as many
    [ReadMsg] calls as there are messages, each passing its timeout guard,
    return exactly [msgs] in order, and what follows the frames stays
    unconsumed, followed by what arrived meanwhile. *)
Theorem ReadMsg_repeat_returns_the_framed_messages
  {N : Type} `{NetConn N} (c : Conn N) (timeout : Duration)
  (msgs : list string) (rest : list byte) (wss : list (list tick)) :
  Forall (fun m => ~ In (msgDelim c) (bytes_of_string m)) msgs ->
  unconsumed c = frames (msgDelim c) msgs ++ rest ->
  Forall2 (fun (m : string) ws =>
             exists w ws', ws = w :: ws' /\
                           timed_out (since w) timeout = false) msgs wss ->
  exists c',
    ReadMsg_repeat timeout wss c = Some (msgs, c') /\
    unconsumed c'
    = rest ++ concat (map (fun ws => match ws with
                                     | w :: _ => arrived w
                                     | [] => []
                                     end) wss).
Proof.
  intros Hclean Hbuf Hobs. revert c rest Hclean Hbuf.
  induction Hobs as [|m ws msgs wss (w & ws' & -> & Hto) _ IH];
    intros c rest Hclean Hbuf.
  - exists c. simpl. split; [reflexivity|].
    now rewrite app_nil_r, Hbuf.
  - inversion Hclean as [|? ? Hm Hms]; subst.
    assert (Hread : ReadMsg timeout (w :: ws') c
                    = Return m nil_error
                        (set_readBuf
                           (frames (msgDelim c) msgs ++ rest ++ arrived w)
                           (updateWholeBuffer (deliver (arrived w) c)))).
    { rewrite <- (string_bytes_roundtrip m) at 1.
      apply ReadMsg_found; [exact Hto| |exact Hm].
      rewrite Hbuf. unfold frames. simpl.
      now rewrite <- !app_assoc. }
    destruct (IH (set_readBuf (frames (msgDelim c) msgs ++ rest ++ arrived w)
                    (updateWholeBuffer (deliver (arrived w) c)))
                 (rest ++ arrived w)) as (c' & Hrest & Hleft).
    + exact Hms.
    + rewrite unconsumed_after_cut. simpl. now rewrite app_assoc.
    + exists c'. split.
      * rewrite ReadMsg_repeat_cons, Hread. now rewrite Hrest.
      * rewrite Hleft. simpl. now rewrite <- app_assoc.
Qed.

Lemma ReadMsg_repeat_returns_the_framed_messages_witness :
  exists c',
    ReadMsg_repeat 5%Z [[mkTick 1%Z [x7a]]; [mkTick 2%Z []]]
      (set_readBuf (bytes_of_string "ab;;cd") fresh)
    = Some (["ab"%string; EmptyString], c') /\
    unconsumed c' = [x63; x64] ++ [x7a].
Proof.
  refine (@ReadMsg_repeat_returns_the_framed_messages pipe _
            (set_readBuf (bytes_of_string "ab;;cd") fresh) 5%Z
            ["ab"%string; EmptyString] [x63; x64]
            [[mkTick 1%Z [x7a]]; [mkTick 2%Z []]] _ _ _).
  - repeat constructor; simpl; intros Hin.
    + destruct Hin as [E|[E|[]]]; discriminate E.
    + exact Hin.
  - reflexivity.
  - repeat constructor; do 2 eexists; (split; [reflexivity|reflexivity]).
Defined.



(** X16.  Nothing escapes the delimiter.  [WriteMsg] writes a message that
    contains the delimiter as it is, so the peer's [ReadMsg] returns only
    the bytes before the first delimiter inside the message, which is not the
    message that was written, and leaves the remainder, ended by the
    delimiter that [WriteMsg] appended, to be read as a further message. *)
Theorem message_containing_the_delimiter_is_split
  {N : Type} `{NetConn N} {M : Type} `{NetConn M}
  (a : Conn N) (b : Conn M) (msg : string) (pre post : list byte)
  (timeout : Duration) (w : tick) (ws : list tick) :
  bytes_of_string msg = pre ++ msgDelim a :: post ->
  ~ In (msgDelim a) pre ->
  msgDelim b = msgDelim a ->
  unconsumed b = [] ->
  arrived w = bytes_of_string msg ++ [msgDelim a] ->
  timed_out (since w) timeout = false ->
  fst (WriteMsg msg a)
  = snd (net_Write (netconn a) (bytes_of_string msg ++ [msgDelim a])) /\
  exists b',
    ReadMsg timeout (w :: ws) b = Return (string_of_bytes pre) nil_error b' /\
    string_of_bytes pre <> msg /\
    unconsumed b' = post ++ [msgDelim a].
Proof.
  intros Hmsg Hpre Hdelim Hempty Harrive Hto. split.
  - unfold WriteMsg, Write.
    now destruct (net_Write (netconn a) (bytes_of_string msg ++ [msgDelim a])).
  - exists (set_readBuf (post ++ [msgDelim a])
                        (updateWholeBuffer (deliver (arrived w) b))).
    repeat split.
    + apply ReadMsg_found; [exact Hto| |now rewrite Hdelim].
      rewrite Hempty, Harrive, Hmsg, Hdelim. simpl.
      now rewrite <- app_assoc.
    + intros Heq. apply (f_equal bytes_of_string) in Heq.
      rewrite bytes_string_roundtrip, Hmsg in Heq.
      apply (f_equal (@length byte)) in Heq.
      rewrite length_app in Heq. simpl in Heq. lia.
    + apply unconsumed_after_cut.
Qed.

Lemma message_containing_the_delimiter_is_split_witness :
  fst (WriteMsg "a;b" fresh) = (4%Z, nil_error) /\
  exists b',
    ReadMsg 0%Z [mkTick 0%Z (bytes_of_string "a;b;")] fresh
    = Return "a"%string nil_error b' /\
    "a"%string <> "a;b"%string /\
    unconsumed b' = [x62; x3b].
Proof.
  refine (@message_containing_the_delimiter_is_split pipe _ pipe _
            fresh fresh "a;b" [x61] [x62] 0%Z
            (mkTick 0%Z (bytes_of_string "a;b;")) [] _ _ _ _ _ _).
  - reflexivity.
  - simpl. intros [E|[]]. discriminate E.
  - reflexivity.
  - reflexivity.
  - reflexivity.
  - reflexivity.
Defined.
